(** * go-mplex: the multiplexer of [multiplex.go], embedded and verified

    The development follows the source file top to bottom: machine
    integers and bytes, the varint codec ([EncodeVarint], [DecodeVarint]),
    Go channels and [select], the [Stream] methods, the [Multiplex]
    methods with the dispatch loop of [Serve], and the serializer
    [handleOutgoing]. *)

From Stdlib Require Import ZArith Lia.
From Stdlib.Strings Require Import Byte.
From Stdlib.Strings Require String.
From stdpp Require Import base option list strings gmap pretty.

Local Open Scope Z_scope.

(** ** Machine integers and bytes *)

(** A [uint64] is a [Z] in [0, 2^64); arithmetic that can leave the range
    is wrapped with [u64], as the Go operators do. *)
Definition u64 (z : Z) : Z := z mod 2 ^ 64.

(** The value of a byte, as [uint64(val)] computes it. *)
Definition byte_val (b : byte) : Z := Z.of_N (Byte.to_N b).

(** The conversion [uint8(x)]: the low eight bits. *)
Definition uint8 (z : Z) : byte :=
  match Byte.of_N (Z.to_N (z mod 256)) with
  | Some b => b
  | None => x00
  end.

(** ** Go errors *)

(** [io.EOF] and [io.ErrUnexpectedEOF] are compared by identity in the
    source ([err == io.EOF]); a value made by [errors.New] is never equal
    to either. *)
Inductive error : Type :=
  | EOF
  | ErrUnexpectedEOF
  | errorString (s : string).

#[global] Instance error_eq_dec : EqDecision error.
Proof. solve_decision. Defined.

(** ** The varint codec *)

(** The loop of [EncodeVarint]. [buf] is the [[10]byte] array and [n] the
    index; [slots] is the number of array cells at index [n] and after.
    Writing [buf[n]] with no cell left is Go's index-out-of-range panic,
    here [None]. *)
Fixpoint EncodeVarint_loop (slots : nat) (buf : list byte) (n : nat) (x : Z)
  : option (list byte * nat * Z) :=
  if 127 <? x then
    match slots with
    | O => None
    | S slots' =>
        EncodeVarint_loop slots'
          (<[n := uint8 (Z.lor 0x80 (byte_val (uint8 (Z.land x 0x7F))))]> buf)
          (S n) (Z.shiftr x 7)
    end
  else Some (buf, n, x).

Definition EncodeVarint (x : Z) : option (list byte) :=
  match EncodeVarint_loop 10 (replicate 10 x00) 0 x with
  | Some (buf, n, x') =>
      if (n <? 10)%nat then Some (take (S n) (<[n := uint8 x']> buf))
      else None
  | None => None
  end.

(** [DecodeVarint] reads from a [bufio.Reader]; the reader is the list of
    bytes it will still deliver, after which [ReadByte] returns [io.EOF].
    The result carries the reader after the call. Each turn of the loop
    consumes one byte, so the recursion is on the reader. *)
Fixpoint DecodeVarint_loop (shift : Z) (x : Z) (n : nat) (r : list byte)
  : Z * nat * option error * list byte :=
  if shift <? 64 then
    match r with
    | [] => (0, O, Some EOF, [])
    | val :: r' =>
        let b := byte_val val in
        let n := S n in
        let x := Z.lor x (u64 (Z.shiftl (Z.land b 0x7F) shift)) in
        if Z.land b 0x80 =? 0 then (x, n, None, r')
        else DecodeVarint_loop (shift + 7) x n r'
    end
  else (0, O, Some (errorString "Too large of a number!"), r).

Definition DecodeVarint (r : list byte) : Z * nat * option error * list byte :=
  DecodeVarint_loop 0 0 0 r.

Arguments DecodeVarint : simpl never.

(** A byte with the continuation bit set. *)
Definition continues (b : byte) : Prop := Z.land (byte_val b) 0x80 <> 0.

(** The bytes [EncodeVarint] leaves in [buf[0:n]], as a list: the
    continuation groups, then the last group. [k] bounds the number of
    groups as the array does. It serves to state what the loop computes. *)
Fixpoint varint_groups (k : nat) (x : Z) : list byte :=
  match k with
  | O => []
  | S k' =>
      if 127 <? x then
        uint8 (Z.lor 0x80 (byte_val (uint8 (Z.land x 0x7F))))
          :: varint_groups k' (Z.shiftr x 7)
      else [uint8 x]
  end.

(** The serializer's three writes for one message, as [handleOutgoing]
    makes them: header varint, length varint, payload. *)
Definition frame_bytes (header : Z) (data : list byte) : option (list byte) :=
  h ← EncodeVarint header;
  l ← EncodeVarint (u64 (Z.of_nat (length data)));
  Some (h ++ l ++ data).

(** ** Calls, channels and [select] *)

(** What becomes of a call: it returns, it panics, or the goroutine is
    parked on a channel operation that nothing in the modelled run will
    complete. *)
Inductive outcome (A : Type) : Type :=
  | Ret (a : A)
  | Panic (why : string)
  | Block.
Arguments Ret {A} a.
Arguments Panic {A} why.
Arguments Block {A}.

(** A buffered channel: the queued values, the capacity and whether
    [close] was called on it. *)
Record chan (A : Type) : Type := Chan {
  queue : list A;
  capacity : nat;
  is_closed : bool;
}.
Arguments Chan {A} queue capacity is_closed.
Arguments queue {A} c.
Arguments capacity {A} c.
Arguments is_closed {A} c.

Definition make_chan {A : Type} (cap : nat) : chan A := Chan [] cap false.

Definition set_queue {A : Type} (c : chan A) (q : list A) : chan A :=
  Chan q (capacity c) (is_closed c).

(** A send can proceed when there is room in the buffer, and also on a
    closed channel, where it proceeds by panicking. *)
Definition can_send {A : Type} (c : chan A) : bool :=
  is_closed c || (length (queue c) <? capacity c)%nat.

(** A receive can proceed when a value is queued, and also on a closed
    channel, where it yields the zero value and [ok = false] once the
    queue is drained. *)
Definition can_recv {A : Type} (c : chan A) : bool :=
  is_closed c || negb (bool_decide (queue c = [])).

Definition chan_send {A : Type} (c : chan A) (v : A) : outcome (chan A) :=
  if is_closed c then Panic "send on closed channel"
  else if (length (queue c) <? capacity c)%nat then Ret (set_queue c (queue c ++ [v]))
  else Block.

Definition chan_close {A : Type} (c : chan A) : outcome (chan A) :=
  if is_closed c then Panic "close of closed channel"
  else Ret (Chan (queue c) (capacity c) true).

(** A [select] with two communication cases and no [default]. Among the
    cases that can proceed Go chooses one pseudo-randomly; [pick] is that
    choice ([true] for the case written first). With no case ready the
    goroutine waits. *)
Inductive choice : Type := Case1 | Case2 | NoCase.

Definition select2 (ready1 ready2 pick : bool) : choice :=
  match ready1, ready2 with
  | true, true => if pick then Case1 else Case2
  | true, false => Case1
  | false, true => Case2
  | false, false => NoCase
  end.

(** ** Frame tags: the [iota] constants *)

(** [NewStream = iota] starts the block at 0 and each following line
    adds one. The constants live in [Tag] because [Stream] and [Multiplex]
    have methods named [Close] and [NewStream]. *)
Module Tag.
Definition NewStream : Z := 0.
Definition Receiver : Z := NewStream + 1.
Definition Initiator : Z := Receiver + 1.
Definition Unknown : Z := Initiator + 1.
Definition Close : Z := Unknown + 1.
End Tag.

(** ** Messages handed to the serializer *)

(** The [err] field of the Go struct is never set nor read. *)
Module msg.
Record t : Type := mk { header : Z; data : list byte }.
End msg.

(** ** [bytes.Buffer], as far as [Stream] uses it *)

(** The buffer is its unread bytes. [Read] into a slice of length [lenp]
    returns the bytes copied, the error and the bytes left. *)
Definition Buffer_Read (lenp : nat) (bf : list byte)
  : list byte * option error * list byte :=
  match bf with
  | [] => if (lenp =? 0)%nat then ([], None, []) else ([], Some EOF, [])
  | _ => (take lenp bf, None, drop lenp bf)
  end.

Definition Buffer_Write (p : list byte) (bf : list byte) : list byte := bf ++ p.

(** ** Streams *)

Module Stream.

(** [closed] is a [chan struct{}] that is never sent on: its whole state
    is whether [close] has been called, and a receive from it can proceed
    exactly then. [data_out] is the multiplexer's [outchan]; it is
    unbuffered, so a send on it proceeds exactly when [handleOutgoing] is
    waiting to receive, which the methods take as [rdy], and the messages
    it receives are returned by the methods that send. *)
Record t : Type := mk {
  id : Z;
  name : string;
  header : Z;
  closed : bool;
  data_in : chan (list byte);
  buf : list byte;
}.

Definition with_closed (s : t) (c : bool) : t :=
  mk (id s) (name s) (header s) c (data_in s) (buf s).
Definition with_data_in (s : t) (d : chan (list byte)) : t :=
  mk (id s) (name s) (header s) (closed s) d (buf s).
Definition with_buf (s : t) (b : list byte) : t :=
  mk (id s) (name s) (header s) (closed s) (data_in s) b.

Definition newStream (id : Z) (name : string) (initiator : bool) : t :=
  let hfn := if initiator then 2 else 1 in
  mk id name (Z.lor (u64 (Z.shiftl id 3)) hfn) false (make_chan 8) [].

Definition Name (s : t) : string := name s.

Definition receive (pick : bool) (b : list byte) (s : t) : outcome t :=
  match select2 (can_send (data_in s)) (closed s) pick with
  | Case1 =>
      match chan_send (data_in s) b with
      | Ret c => Ret (with_data_in s c)
      | Panic why => Panic why
      | Block => Block
      end
  | Case2 => Ret s
  | NoCase => Block
  end.

(** The result of [Read]: the count, the error and the bytes that were
    copied into the caller's slice, in order from its start. *)
Record read_result : Type := mkRead {
  n_read : nat;
  read_err : option error;
  copied : list byte;
}.

(** The [for len(b) > 0] loop. [room] is [len(b)] of the remaining
    window, [q] the queue of [data_in], consumed one payload a turn;
    [pick i] decides the [select] of turn [i] when both cases are
    ready. *)
Fixpoint Read_loop (pick : nat -> bool) (i : nat) (s : t) (lb room nread : nat)
    (out : list byte) (q : list (list byte)) : outcome (read_result * t) :=
  let s := with_data_in s (set_queue (data_in s) q) in
  if (0 <? room)%nat then
    match select2 (can_recv (data_in s)) (closed s) (pick i) with
    | Case1 =>
        match q with
        | [] => Ret (mkRead nread None out, s)
        | data :: q' =>
            let n := Nat.min room (length data) in
            if (n <? length data)%nat then
              Ret (mkRead lb None (out ++ take n data),
                   with_buf (with_data_in s (set_queue (data_in s) q'))
                     (Buffer_Write (drop n data) (buf s)))
            else
              Read_loop pick (S i) s lb (room - n) (nread + n)
                (out ++ take n data) q'
        end
    | Case2 => Ret (mkRead nread None out, s)
    | NoCase => Block
    end
  else Ret (mkRead lb None out, s).

Definition Read (pick : nat -> bool) (lenb : nat) (s : t)
  : outcome (read_result * t) :=
  if closed s then Ret (mkRead 0 (Some EOF) [], s)
  else
    let lb := lenb in
    if (0 <? length (buf s))%nat then
      match Buffer_Read lenb (buf s) with
      | (got, Some err, bf) => Ret (mkRead 0 (Some err) got, with_buf s bf)
      | (got, None, bf) =>
          let n := length got in
          let s := with_buf s bf in
          if (lenb <=? n)%nat then Ret (mkRead n None got, s)
          else Read_loop pick 0 s lb (lenb - n) n got (queue (data_in s))
      end
    else Read_loop pick 0 s lb lenb 0 [] (queue (data_in s)).

Definition Write (rdy pick : bool) (b : list byte) (s : t)
  : outcome (nat * option error * list msg.t) :=
  match select2 rdy (closed s) pick with
  | Case1 => Ret (length b, None, [msg.mk (header s) b])
  | Case2 => Ret (O, Some (errorString "stream closed"), [])
  | NoCase => Block
  end.

Definition Close (rdy : bool) (s : t) : outcome (option error * t * list msg.t) :=
  if closed s then Ret (None, s, [])
  else
    let s := with_closed s true in
    let sent :=
      if rdy then [msg.mk (Z.lor (u64 (Z.shiftl (id s) 3)) Tag.Close) []] else [] in
    match chan_close (data_in s) with
    | Ret c => Ret (None, with_data_in s c, sent)
    | Panic why => Panic why
    | Block => Block
    end.

End Stream.

(** ** The multiplexer *)

Module Multiplex.

(** [con] is the transport's read side seen through [mp.buf]: the bytes
    still to come, after which reads return [io.EOF]. [channels] maps a
    stream id to a pointer. The mutex [ch_lock] is not represented: a
    run of the model is one goroutine's calls in sequence. *)
Record t : Type := mk {
  con : list byte;
  nextID : Z;
  closed : bool;
  initiator : bool;
  channels : gmap Z nat;
}.

Definition with_con (m : t) (c : list byte) : t :=
  mk c (nextID m) (closed m) (initiator m) (channels m).
Definition with_nextID (m : t) (n : Z) : t :=
  mk (con m) n (closed m) (initiator m) (channels m).
Definition with_closed (m : t) (c : bool) : t :=
  mk (con m) (nextID m) c (initiator m) (channels m).
Definition with_channels (m : t) (c : gmap Z nat) : t :=
  mk (con m) (nextID m) (closed m) (initiator m) c.

(** The program state: the [Stream] objects by address (a [*Stream] is
    an index into [heap]), the multiplexer, the messages
    [handleOutgoing] has received from [outchan], oldest first, and the
    streams on which a handler goroutine was started. *)
Record World : Type := mkWorld {
  heap : list Stream.t;
  mp : t;
  outchan : list msg.t;
  handlers : list nat;
}.

Definition with_heap (w : World) (h : list Stream.t) : World :=
  mkWorld h (mp w) (outchan w) (handlers w).
Definition with_mp (w : World) (m : t) : World :=
  mkWorld (heap w) m (outchan w) (handlers w).
Definition with_outchan (w : World) (o : list msg.t) : World :=
  mkWorld (heap w) (mp w) o (handlers w).
Definition with_handlers (w : World) (h : list nat) : World :=
  mkWorld (heap w) (mp w) (outchan w) h.

(** Calls that read and change the program state. *)
Definition M (A : Type) : Type := World -> outcome (A * World).

Definition ret {A : Type} (a : A) : M A := fun w => Ret (a, w).

Definition bind {A B : Type} (c : M A) (k : A -> M B) : M B :=
  fun w =>
    match c w with
    | Ret (a, w') => k a w'
    | Panic why => Panic why
    | Block => Block
    end.

#[global] Instance M_ret : MRet M := @ret.
#[global] Instance M_bind : MBind M := fun A B k c => bind c k.

Definition get_mp : M t := fun w => Ret (mp w, w).
Definition put_mp (m : t) : M unit := fun w => Ret (tt, with_mp w m).
Definition block {A : Type} : M A := fun _ => Block.
Definition panic {A : Type} (why : string) : M A := fun _ => Panic why.

Definition load (p : nat) : M Stream.t :=
  fun w =>
    match heap w !! p with
    | Some s => Ret (s, w)
    | None => Panic "invalid memory address or nil pointer dereference"
    end.
Definition store (p : nat) (s : Stream.t) : M unit :=
  fun w => Ret (tt, with_heap w (<[p := s]> (heap w))).
Definition alloc (s : Stream.t) : M nat :=
  fun w => Ret (length (heap w), with_heap w (heap w ++ [s])).
Definition emit (ms : list msg.t) : M unit :=
  fun w => Ret (tt, with_outchan w (outchan w ++ ms)).
Definition spawn_handler (p : nat) : M unit :=
  fun w => Ret (tt, with_handlers w (handlers w ++ [p])).

(** The [Stream] methods called through a pointer. *)
Definition Stream_Close (rdy : bool) (p : nat) : M (option error) :=
  s ← load p;
  match Stream.Close rdy s with
  | Ret (err, s', sent) => store p s';; emit sent;; ret err
  | Panic why => panic why
  | Block => block
  end.

Definition Stream_receive (pick : bool) (p : nat) (b : list byte) : M unit :=
  s ← load p;
  match Stream.receive pick b s with
  | Ret s' => store p s'
  | Panic why => panic why
  | Block => block
  end.

Definition Stream_Write (rdy pick : bool) (p : nat) (b : list byte)
  : M (nat * option error) :=
  s ← load p;
  match Stream.Write rdy pick b s with
  | Ret (n, err, sent) => emit sent;; ret (n, err)
  | Panic why => panic why
  | Block => block
  end.

Definition Stream_Read (pick : nat -> bool) (p : nat) (lenb : nat)
  : M Stream.read_result :=
  s ← load p;
  match Stream.Read pick lenb s with
  | Ret (r, s') => store p s';; ret r
  | Panic why => panic why
  | Block => block
  end.

(** States the methods keep to: every entry of [channels] points at a
    [Stream], and only [Stream.Close], which first marks the stream
    closed, closes [data_in]. *)
Definition stream_ok (s : Stream.t) : Prop :=
  Stream.closed s = false -> is_closed (Stream.data_in s) = false.

Definition wf (w : World) : Prop :=
  Forall stream_ok (heap w) /\
  forall (ch : Z) (p : nat), channels (mp w) !! ch = Some p -> (p < length (heap w))%nat.

Definition NewMultiplex (con : list byte) (initiator : bool) : World :=
  mkWorld [] (mk con 0 false initiator ∅) [] [].

Definition IsClosed : M bool := m ← get_mp; ret (closed m).

(** [range mp.channels] visits the entries in an order Go leaves open;
    the model visits them in the order of [map_to_list]. [rdy p] says
    whether the serializer takes the Close frame of the stream at [p]. *)
Fixpoint Close_range (rdy : nat -> bool) (l : list (Z * nat)) : M (option error) :=
  match l with
  | [] => ret None
  | (_, p) :: l' =>
      err ← Stream_Close (rdy p) p;
      match err with
      | Some e => ret (Some e)
      | None => Close_range rdy l'
      end
  end.

Definition Close (rdy : nat -> bool) : M (option error) :=
  c ← IsClosed;
  if c : bool then ret None
  else
    m ← get_mp;
    put_mp (with_closed m true);;
    Close_range rdy (map_to_list (channels m)).

Fixpoint shutdown_range (rdy : nat -> bool) (l : list (Z * nat)) : M unit :=
  match l with
  | [] => ret tt
  | (_, p) :: l' => Stream_Close (rdy p) p;; shutdown_range rdy l'
  end.

Definition shutdown (rdy : nat -> bool) : M unit :=
  m ← get_mp;
  shutdown_range rdy (map_to_list (channels m)).

Definition nextChanID : M Z :=
  m ← get_mp;
  let out := if initiator m then u64 (nextID m + 1) else nextID m in
  put_mp (with_nextID m (u64 (nextID m + 2)));;
  ret out.

(** The ids of [k] calls in a row, oldest first. *)
Fixpoint issue (k : nat) : M (list Z) :=
  match k with
  | O => ret []
  | S k' => i ← nextChanID; l ← issue k'; ret (i :: l)
  end.

(** The send on [outchan] at the end blocks until the serializer takes
    the message. *)
Definition NewNamedStream (rdy : bool) (name : string) : M nat :=
  sid ← nextChanID;
  let header := Z.lor (u64 (Z.shiftl sid 3)) Tag.NewStream in
  let name := if decide (name = "") then pretty sid else name in
  p ← alloc (Stream.newStream sid name true);
  m ← get_mp;
  put_mp (with_channels m (<[sid := p]> (channels m)));;
  (if rdy then emit [msg.mk header (String.list_byte_of_string name)] else block);;
  ret p.

Definition NewStream (rdy : bool) : M nat := NewNamedStream rdy "".

Definition readNextHeader : M (Z * Z * option error) :=
  m ← get_mp;
  let '(h, _, err, r) := DecodeVarint (con m) in
  put_mp (with_con m r);;
  match err with
  | Some e => ret (0, 0, Some e)
  | None => ret (Z.shiftr h 3, Z.land h 7, None)
  end.

(** [io.ReadFull] into a slice of length [l]: [io.EOF] when no byte
    could be read, [io.ErrUnexpectedEOF] when some but not all were. *)
Definition ReadFull (l : nat) (r : list byte)
  : list byte * option error * list byte :=
  if (l <=? length r)%nat then (take l r, None, drop l r)
  else match r with
       | [] => ([], Some EOF, [])
       | _ => (r, Some ErrUnexpectedEOF, [])
       end.

(** The largest size the Go runtime ever allocates for one object: its
    [maxAlloc] on the platforms with 48 heap address bits (amd64 among
    them), the largest of all platforms. *)
Definition maxAlloc : Z := 2 ^ 48.

(** [make([]byte, l)] asks the runtime for [l] bytes, [l] being the
    length the peer announced. Above [maxAlloc] the runtime panics on
    every platform, and a slice of no bytes takes no memory. In between
    the answer is the environment's: [mem l] tells whether the runtime
    of this machine gives a slice of [l] bytes; when it does not (a
    lower platform limit, or no memory left) the program is lost in
    [make], before any payload byte is read. *)
Definition readNext (mem : Z -> bool)
  : M (option (list byte) * option error) :=
  m ← get_mp;
  let '(l, _, err, r) := DecodeVarint (con m) in
  put_mp (with_con m r);;
  match err with
  | Some e => ret (None, Some e)
  | None =>
      if maxAlloc <? l then panic "makeslice: len out of range"
      else if (l =? 0) || mem l then
        let '(got, err, r') := ReadFull (Z.to_nat l) r in
        put_mp (with_con m r');;
        match err with
        | Some e => ret (None, Some e)
        | None =>
            if bool_decide (Z.of_nat (length got) = l) then ret (Some got, None)
            else panic "NOT THE SAME"
        end
      else panic "out of memory"
  end.

Definition payload (b : option (list byte)) : list byte := default [] b.

(** The part of a turn of the [for] loop in [Serve] that follows the
    two reads: look the stream up or make it, then close it or hand it
    the payload. Each way through ends in the next turn. [rdy] and
    [pick] are the environment of the one [Close] or [receive] made. *)
Definition dispatch (rdy pick : bool) (ch tag : Z) (b : list byte) : M unit :=
  m ← get_mp;
  '(msch, skip) ←
    match channels m !! ch with
    | Some p => ret (p, false)
    | None =>
        let name :=
          if bool_decide (tag = Tag.NewStream) then String.string_of_list_byte b
          else "" in
        p ← alloc (Stream.newStream ch name false);
        put_mp (with_channels m (<[ch := p]> (channels m)));;
        spawn_handler p;;
        ret (p, bool_decide (tag = Tag.NewStream))
    end;
  if skip : bool then ret tt
  else if bool_decide (tag = Tag.Close) then
    Stream_Close rdy msch;;
    m ← get_mp;
    put_mp (with_channels m (delete ch (channels m)))
  else
    Stream_receive pick msch b.

(** One turn of the [for] loop of [Serve]: [Some r] when the loop ends
    with [return r], [None] when it goes round again. [mem] is the
    runtime's answer to the one [make] of the turn. *)
Definition Serve_turn (mem : Z -> bool) (rdy pick : bool)
  : M (option (option error)) :=
  '(ch, tag, err) ← readNextHeader;
  match err with
  | Some e => if bool_decide (e = EOF) then ret (Some None) else ret (Some (Some e))
  | None =>
      '(b, err) ← readNext mem;
      match err with
      | Some e => if bool_decide (e = EOF) then ret (Some None) else ret (Some (Some e))
      | None => dispatch rdy pick ch tag (payload b);; ret None
      end
  end.

(** The [for] loop. A turn that goes round again has consumed at least
    one byte of [con], so [Serve] starts the loop with more fuel than it
    can use: the [O] case is never reached ([Serve_loop_not_out_of_fuel]
    below). *)
Fixpoint Serve_loop (mem : nat -> Z -> bool) (fuel : nat)
    (rdy pick : nat -> bool) (i : nat) : M (option error) :=
  match fuel with
  | O => panic "unreachable"
  | S fuel' =>
      r ← Serve_turn (mem i) (rdy i) (pick i);
      match r with
      | Some e => ret e
      | None => Serve_loop mem fuel' rdy pick (S i)
      end
  end.

(** [go mp.handleOutgoing()] starts the serializer, whose readiness is
    [rdy]; [mem i] is the runtime's answer to the [make] of turn [i].
    The deferred [shutdown] runs when the loop returns; after a panic
    the process is lost and the model stops there. *)
Definition Serve (mem : nat -> Z -> bool) (rdy pick rdy_sd : nat -> bool)
  : M (option error) :=
  m ← get_mp;
  r ← Serve_loop mem (S (length (con m))) rdy pick 0;
  shutdown rdy_sd;;
  ret r.

End Multiplex.

Import Multiplex.

(** Unfolds the plumbing of [M] in the goal and the hypotheses. *)
Ltac run_M :=
  unfold mbind, mret, M_bind, M_ret, bind, ret, get_mp, put_mp, load, store,
    alloc, emit, spawn_handler, panic, block in *; cbn in *.

(** ** The serializer *)

(** [Error()] of an error value, which [panic(err)] reports. *)
Definition Error (e : error) : string :=
  match e with
  | EOF => "EOF"
  | ErrUnexpectedEOF => "unexpected EOF"
  | errorString s => s
  end.

(** The write side of the transport: the bytes written so far and the
    number of [Write] calls made. *)
Record wire : Type := Wire {
  wbytes : list byte;
  wcalls : nat;
}.

(** [mp.con.Write(p)]. The transport is the environment's: [wfail k] is
    the error of the call number [k], if that call fails. The code
    panics on an error, so what a failed call may have written is not
    represented. *)
Definition con_Write (wfail : nat -> option error) (p : list byte) (c : wire)
  : wire + error :=
  match wfail (wcalls c) with
  | Some e => inr e
  | None => inl (Wire (wbytes c ++ p) (S (wcalls c)))
  end.

(** The body of the receive case of [handleOutgoing]: the three writes
    for one message, each followed by [panic(err)] on an error. The
    right side is the panic. *)
Definition write_msg (wfail : nat -> option error) (m : msg.t) (c : wire)
  : wire + string :=
  match EncodeVarint (msg.header m) with
  | None => inr "index out of range"
  | Some buf =>
      match con_Write wfail buf c with
      | inr e => inr (Error e)
      | inl c =>
          match EncodeVarint (u64 (Z.of_nat (length (msg.data m)))) with
          | None => inr "index out of range"
          | Some buf =>
              match con_Write wfail buf c with
              | inr e => inr (Error e)
              | inl c =>
                  match con_Write wfail (msg.data m) c with
                  | inr e => inr (Error e)
                  | inl c => inl c
                  end
              end
          end
      end
  end.

(** How a run of [handleOutgoing] ends: the function returns, leaving the
    messages it did not take; or it waits in its [select] with nothing to
    receive; or it panics. *)
Inductive serializer_end : Type :=
  | Returned (c : wire) (left : list msg.t)
  | Waiting (c : wire)
  | Panicked (why : string).

(** The [for] loop of [handleOutgoing]. [outchan] is unbuffered:
    [pending] are the messages that senders are waiting to hand over, in
    the order the serializer gets them, and [och_closed] is whether the
    channel was closed; a receive can proceed when a sender waits or the
    channel is closed. [closed] is the multiplexer's closed signal. *)
Fixpoint handleOutgoing_loop (wfail : nat -> option error) (pick : nat -> bool)
    (i : nat) (closed och_closed : bool) (c : wire) (pending : list msg.t)
  : serializer_end :=
  match select2 (can_recv (Chan pending O och_closed)) closed (pick i) with
  | Case1 =>
      match pending with
      | [] => Returned c []
      | m :: pending' =>
          match write_msg wfail m c with
          | inr why => Panicked why
          | inl c' =>
              handleOutgoing_loop wfail pick (S i) closed och_closed c' pending'
          end
      end
  | Case2 => Returned c pending
  | NoCase => Waiting c
  end.

Definition handleOutgoing (wfail : nat -> option error) (pick : nat -> bool)
    (closed : bool) (c : wire) (pending : list msg.t) : serializer_end :=
  handleOutgoing_loop wfail pick 0 closed false c pending.

(** ** Runs of calls on one stream *)

(** [receive] called once for each payload of [bs], in order; [pick k]
    is the choice in the call number [k]. *)
Fixpoint receive_all (pick : nat -> bool) (k : nat) (bs : list (list byte))
    (s : Stream.t) : outcome Stream.t :=
  match bs with
  | [] => Ret s
  | b :: bs' =>
      match Stream.receive (pick k) b s with
      | Ret s' => receive_all pick (S k) bs' s'
      | Panic why => Panic why
      | Block => Block
      end
  end.

(** The bytes a stream holds for its reader: the residue, then the
    payloads of the inbox in order. *)
Definition unread (s : Stream.t) : list byte :=
  Stream.buf s ++ concat (queue (Stream.data_in s)).

(** * Properties *)

(** ** Sanity checks of the codec on literal values *)

Example EncodeVarint_0 : EncodeVarint 0 = Some [x00].
Proof. reflexivity. Qed.

Example EncodeVarint_300 : EncodeVarint 300 = Some [xac; x02].
Proof. reflexivity. Qed.

Example EncodeVarint_max :
  EncodeVarint (2 ^ 64 - 1) = Some [xff; xff; xff; xff; xff; xff; xff; xff; xff; x01].
Proof. vm_compute. reflexivity. Qed.

Example DecodeVarint_300 : DecodeVarint [xac; x02; x07] = (300, 2%nat, None, [x07]).
Proof. vm_compute. reflexivity. Qed.

(** ** Bytes and bit masks *)

Lemma byte_val_range (b : byte) : 0 <= byte_val b < 256.
Proof.
  unfold byte_val. pose proof (Byte.to_N_bounded b) as H. lia.
Qed.

Lemma byte_val_uint8 (z : Z) : byte_val (uint8 z) = z mod 256.
Proof.
  unfold byte_val, uint8.
  assert (Hr : 0 <= z mod 256 < 256) by (apply Z.mod_pos_bound; lia).
  pose proof (Byte.to_of_N_option_map (Z.to_N (z mod 256))) as H.
  destruct (Byte.of_N (Z.to_N (z mod 256))) as [b|] eqn:E; simpl in H.
  - destruct (Z.to_N (z mod 256) <=? 255)%N eqn:Hle; [|discriminate].
    injection H as ->. lia.
  - destruct (Z.to_N (z mod 256) <=? 255)%N eqn:Hle; [discriminate|].
    apply N.leb_gt in Hle. lia.
Qed.

Lemma byte_val_uint8_small (z : Z) : 0 <= z < 256 -> byte_val (uint8 z) = z.
Proof. intros H. rewrite byte_val_uint8. apply Z.mod_small. exact H. Qed.

Lemma land_127 (x : Z) : Z.land x 127 = x mod 128.
Proof. change 127 with (Z.ones 7). rewrite Z.land_ones by lia. reflexivity. Qed.

Lemma lor_128_low (y : Z) : 0 <= y < 128 -> Z.lor 128 y = 128 + y.
Proof.
  intros H. symmetry. apply Z.add_nocarry_lor.
  rewrite <- (Z.mod_small y 128), <- land_127 by lia.
  rewrite (Z.land_comm y 127), Z.land_assoc. reflexivity.
Qed.

(** The value of a continuation byte and of its two masks. *)
Lemma continuation_byte (x : Z) :
  0 <= x ->
  let b := byte_val (uint8 (Z.lor 0x80 (byte_val (uint8 (Z.land x 0x7F))))) in
  Z.land b 0x7F = x mod 128 /\ Z.land b 0x80 = 128.
Proof.
  intros Hx b.
  assert (Hm : 0 <= x mod 128 < 128) by (apply Z.mod_pos_bound; lia).
  assert (Hb : b = 128 + x mod 128).
  { unfold b. rewrite land_127, (byte_val_uint8_small (x mod 128)) by lia.
    rewrite lor_128_low by lia. apply byte_val_uint8_small. lia. }
  rewrite Hb. split.
  - rewrite land_127. clear Hb. revert Hm. generalize (x mod 128). intros y Hy.
    Z.div_mod_to_equations. lia.
  - rewrite <- lor_128_low by lia. rewrite Z.land_lor_distr_l.
    rewrite <- land_127, <- Z.land_assoc.
    change (Z.land 127 128) with 0. rewrite Z.land_0_r. reflexivity.
Qed.

(** The value of a last byte and of its two masks. *)
Lemma last_byte (x : Z) :
  0 <= x <= 127 ->
  let b := byte_val (uint8 x) in
  Z.land b 0x7F = x /\ Z.land b 0x80 = 0.
Proof.
  intros Hx b. unfold b. rewrite byte_val_uint8_small by lia. split.
  - rewrite land_127. apply Z.mod_small. lia.
  - rewrite <- (Z.mod_small x 128) by lia. rewrite <- land_127, <- Z.land_assoc.
    apply Z.land_0_r.
Qed.

(** Splitting off the low seven bits of a shifted value. *)
Lemma shift_split (x s : Z) :
  0 <= x -> 0 <= s ->
  Z.lor (Z.shiftl (x mod 128) s) (Z.shiftl (Z.shiftr x 7) (s + 7)) = Z.shiftl x s.
Proof.
  intros Hx Hs. rewrite <- land_127.
  apply Z.bits_inj'. intros n Hn.
  rewrite Z.lor_spec, !Z.shiftl_spec by lia.
  destruct (Z.ltb_spec n s) as [Hlt|Hge].
  - rewrite !(Z.testbit_neg_r _ (n - s)), (Z.testbit_neg_r _ (n - (s + 7))) by lia.
    reflexivity.
  - rewrite Z.land_spec. change 127 with (Z.ones 7).
    destruct (Z.ltb_spec (n - s) 7) as [Hlo|Hhi].
    + rewrite Z.ones_spec_low by lia.
      rewrite (Z.testbit_neg_r _ (n - (s + 7))) by lia.
      rewrite andb_true_r, orb_false_r. reflexivity.
    + rewrite Z.ones_spec_high by lia.
      rewrite Z.shiftr_spec by lia.
      rewrite andb_false_r. simpl. f_equal. lia.
Qed.

(** ** What the two loops compute *)

Lemma pow7_step (k : nat) : 2 ^ (7 * Z.of_nat (S k)) = 128 * 2 ^ (7 * Z.of_nat k).
Proof.
  replace (7 * Z.of_nat (S k)) with (7 + 7 * Z.of_nat k) by lia.
  rewrite Z.pow_add_r by lia. reflexivity.
Qed.

Lemma shiftr7_bound (x e : Z) :
  0 <= x < 128 * 2 ^ e -> 0 <= Z.shiftr x 7 < 2 ^ e.
Proof.
  intros H. rewrite Z.shiftr_div_pow2 by lia. change (2 ^ 7) with 128. split.
  - apply Z.div_pos; lia.
  - apply Z.div_lt_upper_bound; lia.
Qed.

(** A value above 127 needs a second group, so more than one cell. *)
Lemma groups_left (k : nat) (x : Z) :
  127 < x -> x < 2 ^ (7 * Z.of_nat (S k)) -> (1 <= k)%nat.
Proof.
  intros Hx Hb. destruct k; [|lia]. change (2 ^ (7 * Z.of_nat 1)) with 128 in Hb. lia.
Qed.

Lemma EncodeVarint_loop_groups (slots : nat) :
  forall (buf : list byte) (n : nat) (x : Z),
    length buf = (n + slots)%nat ->
    (1 <= slots)%nat ->
    0 <= x < 2 ^ (7 * Z.of_nat slots) ->
    exists buf' n' x',
      EncodeVarint_loop slots buf n x = Some (buf', n', x') /\
      (n' < n + slots)%nat /\
      length buf' = length buf /\
      take (S n') (<[n' := uint8 x']> buf') = take n buf ++ varint_groups slots x.
Proof.
  induction slots as [|k IH]; intros buf n x Hlen Hk Hx; [lia|].
  cbn [EncodeVarint_loop varint_groups].
  destruct (127 <? x) eqn:Hbig.
  - apply Z.ltb_lt in Hbig.
    pose proof (groups_left k x Hbig (proj2 Hx)) as Hk'.
    rewrite pow7_step in Hx.
    set (c := uint8 (Z.lor 128 (byte_val (uint8 (Z.land x 127))))).
    destruct (IH (<[n := c]> buf) (S n) (Z.shiftr x 7)) as (buf' & n' & x' & He & Hn & Hl & Ht).
    + rewrite length_insert. lia.
    + exact Hk'.
    + apply shiftr7_bound. exact Hx.
    + exists buf', n', x'. rewrite He. split; [reflexivity|].
      split; [lia|]. split; [rewrite Hl; apply length_insert|].
      rewrite Ht.
      rewrite (take_S_r _ n c) by (apply list_lookup_insert_eq; lia).
      rewrite take_insert_ge by lia.
      rewrite <- app_assoc. reflexivity.
  - exists buf, n, x. split; [reflexivity|]. split; [lia|]. split; [reflexivity|].
    rewrite (take_S_r _ n (uint8 x)) by (apply list_lookup_insert_eq; lia).
    rewrite take_insert_ge by lia. reflexivity.
Qed.

Lemma EncodeVarint_groups (x : Z) :
  0 <= x < 2 ^ 70 -> EncodeVarint x = Some (varint_groups 10 x).
Proof.
  intros Hx. unfold EncodeVarint.
  destruct (EncodeVarint_loop_groups 10 (replicate 10 x00) 0 x)
    as (buf' & n' & x' & He & Hn & _ & Ht); [reflexivity|lia|exact Hx|].
  rewrite He. destruct (Nat.ltb_spec n' 10) as [_|Hge]; [|lia].
  rewrite Ht. reflexivity.
Qed.

Lemma varint_groups_length (k : nat) :
  forall x : Z,
    (1 <= k)%nat -> 0 <= x < 2 ^ (7 * Z.of_nat k) ->
    (1 <= length (varint_groups k x) <= k)%nat.
Proof.
  induction k as [|k IH]; intros x Hk Hx; [lia|].
  cbn [varint_groups]. destruct (127 <? x) eqn:Hbig.
  - apply Z.ltb_lt in Hbig.
    pose proof (groups_left k x Hbig (proj2 Hx)) as Hk'.
    rewrite pow7_step in Hx.
    specialize (IH (Z.shiftr x 7) Hk' (shiftr7_bound _ _ Hx)).
    cbn [length]. lia.
  - cbn [length]. lia.
Qed.

Lemma u64_small (z : Z) : 0 <= z < 2 ^ 64 -> u64 z = z.
Proof. intros H. unfold u64. apply Z.mod_small. exact H. Qed.

Lemma shiftl_bound (y x s : Z) :
  0 <= y <= x -> 0 <= s < 64 -> x < 2 ^ (64 - s) -> 0 <= Z.shiftl y s < 2 ^ 64.
Proof.
  intros Hy Hs Hx. rewrite Z.shiftl_mul_pow2 by lia.
  assert (Hp : 0 < 2 ^ s) by (apply Z.pow_pos_nonneg; lia).
  replace (2 ^ 64) with (2 ^ (64 - s) * 2 ^ s)
    by (rewrite <- Z.pow_add_r by lia; f_equal; lia).
  split; [apply Z.mul_nonneg_nonneg; lia|].
  apply Z.mul_lt_mono_pos_r; lia.
Qed.

(** Decoding what the encoder wrote for [x], from a shift at which [x]
    still fits 64 bits, adds [x] at that shift and stops after its last
    group. *)
Lemma DecodeVarint_loop_groups (k : nat) :
  forall (x shift acc : Z) (n : nat) (rest : list byte),
    (1 <= k)%nat ->
    0 <= x < 2 ^ (7 * Z.of_nat k) ->
    0 <= shift < 64 ->
    x < 2 ^ (64 - shift) ->
    DecodeVarint_loop shift acc n (varint_groups k x ++ rest) =
      (Z.lor acc (Z.shiftl x shift), (n + length (varint_groups k x))%nat, None, rest).
Proof.
  induction k as [|k IH]; intros x shift acc n rest Hk Hx Hs Hfit; [lia|].
  cbn [varint_groups]. destruct (127 <? x) eqn:Hbig.
  - apply Z.ltb_lt in Hbig.
    pose proof (groups_left k x Hbig (proj2 Hx)) as Hk'.
    rewrite pow7_step in Hx.
    assert (Hs' : shift + 7 < 64).
    { destruct (Z.le_gt_cases 57 shift) as [Hhi|]; [|lia].
      assert (2 ^ (64 - shift) <= 2 ^ 7) by (apply Z.pow_le_mono_r; lia).
      change (2 ^ 7) with 128 in *. lia. }
    destruct (continuation_byte x (proj1 Hx)) as [Hlow Hhigh].
    cbn [app DecodeVarint_loop].
    destruct (Z.ltb_spec shift 64) as [_|]; [|lia].
    cbv zeta. rewrite Hlow, Hhigh. cbn [Z.eqb].
    rewrite IH.
    + assert (Hm : 0 <= x mod 128 <= x).
      { split; [apply Z.mod_pos_bound; lia|apply Z.mod_le; lia]. }
      rewrite (u64_small _ (shiftl_bound _ x _ Hm Hs Hfit)).
      rewrite <- Z.lor_assoc, shift_split by lia.
      do 3 f_equal. simpl. lia.
    + exact Hk'.
    + apply shiftr7_bound. exact Hx.
    + lia.
    + apply (shiftr7_bound x (64 - (shift + 7))).
      replace (128 * 2 ^ (64 - (shift + 7))) with (2 ^ (64 - shift)).
      * lia.
      * change 128 with (2 ^ 7). rewrite <- Z.pow_add_r by lia. f_equal. lia.
  - apply Z.ltb_ge in Hbig.
    destruct (last_byte x (conj (proj1 Hx) Hbig)) as [Hlow Hhigh].
    cbn [app DecodeVarint_loop].
    destruct (Z.ltb_spec shift 64) as [_|]; [|lia].
    cbv zeta. rewrite Hlow, Hhigh. cbn [Z.eqb].
    rewrite (u64_small _ (shiftl_bound x x shift ltac:(lia) Hs Hfit)).
    do 3 f_equal. simpl. lia.
Qed.

(** ** The varint round trip *)

(** C3: for every uint64 [x], [EncodeVarint x] returns between 1 and 10
    bytes, the single byte 0x00 when [x] is 0, and [DecodeVarint] on those
    bytes (whatever follows them in the reader) returns [x], the number of
    bytes of the encoding and no error, leaving what follows unread. *)
Theorem varint_roundtrip (x : Z) (rest : list byte) :
  0 <= x < 2 ^ 64 ->
  exists bs : list byte,
    EncodeVarint x = Some bs /\
    (1 <= length bs <= 10)%nat /\
    (x = 0 -> bs = [x00]) /\
    DecodeVarint (bs ++ rest) = (x, length bs, None, rest).
Proof.
  intros Hx.
  assert (Hx70 : 0 <= x < 2 ^ (7 * Z.of_nat 10)).
  { change (2 ^ (7 * Z.of_nat 10)) with (2 ^ 64 * 64). lia. }
  exists (varint_groups 10 x). split; [|split; [|split]].
  - apply EncodeVarint_groups. exact Hx70.
  - apply varint_groups_length; [lia|exact Hx70].
  - intros ->. reflexivity.
  - unfold DecodeVarint.
    rewrite (DecodeVarint_loop_groups 10 x 0 0 0 rest); [|lia|exact Hx70|lia|].
    + rewrite Z.shiftl_0_r. reflexivity.
    + change (2 ^ (64 - 0)) with (2 ^ 64). lia.
Qed.

Lemma varint_roundtrip_witness :
  0 <= 2 ^ 63 < 2 ^ 64 /\
  exists bs : list byte,
    EncodeVarint (2 ^ 63) = Some bs /\
    (1 <= length bs <= 10)%nat /\
    (2 ^ 63 = 0 -> bs = [x00]) /\
    DecodeVarint (bs ++ [x2a]) = (2 ^ 63, length bs, None, [x2a]).
Proof.
  split; [lia|]. apply (varint_roundtrip (2 ^ 63) [x2a]). lia.
Defined.

(** ** Overflow in the decoder *)

Lemma DecodeVarint_loop_continues (shift x : Z) (n : nat) (b : byte) (r : list byte) :
  shift < 64 -> continues b ->
  DecodeVarint_loop shift x n (b :: r) =
    DecodeVarint_loop (shift + 7)
      (Z.lor x (u64 (Z.shiftl (Z.land (byte_val b) 0x7F) shift))) (S n) r.
Proof.
  intros Hs Hb. cbn [DecodeVarint_loop].
  destruct (Z.ltb_spec shift 64) as [_|]; [|lia].
  cbv zeta. destruct (Z.eqb_spec (Z.land (byte_val b) 128) 0) as [E|_]; [|reflexivity].
  contradiction.
Qed.

(** Ten bytes that all carry the continuation bit make the decoder give
    up, whatever follows. *)
Lemma DecodeVarint_overflow (bs rest : list byte) :
  length bs = 10%nat -> Forall continues bs ->
  DecodeVarint (bs ++ rest) = (0, O, Some (errorString "Too large of a number!"), rest).
Proof.
  intros Hlen Hall.
  do 10 (destruct bs as [|? bs]; [discriminate Hlen|]).
  destruct bs; [|discriminate Hlen].
  repeat match goal with H : Forall _ (_ :: _) |- _ => apply Forall_cons in H; destruct H end.
  unfold DecodeVarint. cbn [app].
  do 10 (rewrite DecodeVarint_loop_continues by (first [lia|assumption])).
  destruct rest; reflexivity.
Qed.

(** C4: the decoder does not reject every input whose value bits pass
    bit 63. In a tenth byte only the continuation bit is looked at: nine
    continuation bytes followed by 0x02 carry the value 2^64 and decode
    without error to 0, and nine 0xff followed by 0x7f carry seventy
    bits and decode without error to 2^64 - 1. *)
Theorem DecodeVarint_truncates_tenth_byte :
  DecodeVarint [x80; x80; x80; x80; x80; x80; x80; x80; x80; x02]
    = (0, 10%nat, None, []) /\
  DecodeVarint [xff; xff; xff; xff; xff; xff; xff; xff; xff; x7f]
    = (2 ^ 64 - 1, 10%nat, None, []).
Proof. split; vm_compute; reflexivity. Qed.

(** ** Streams: reading *)

Lemma Buffer_Read_error (lenp : nat) (bf got bf' : list byte) (e : error) :
  Buffer_Read lenp bf = (got, Some e, bf') -> bf = [] /\ got = [].
Proof.
  unfold Buffer_Read. destruct bf as [|b bf].
  - destruct (lenp =? 0)%nat; intros [= <- _ _]; auto; discriminate.
  - intros [= _ ? _].
Qed.

(** The loop never returns an error, and it reports as many bytes as it
    has copied. *)
Lemma Read_loop_result (pick : nat -> bool) (q : list (list byte)) :
  forall (i : nat) (s : Stream.t) (lb room nread : nat) (out : list byte)
         (r : Stream.read_result) (s' : Stream.t),
    nread = length out -> (nread + room)%nat = lb ->
    Stream.Read_loop pick i s lb room nread out q = Ret (r, s') ->
    Stream.read_err r = None /\ Stream.n_read r = length (Stream.copied r).
Proof.
  induction q as [|data q IH]; intros i s lb room nread out r s' Hn Hlb.
  - cbn [Stream.Read_loop]. destruct (0 <? room)%nat eqn:Hroom.
    + destruct (select2 _ _ _); intros [= <- _]; cbn; auto.
    + apply Nat.ltb_ge in Hroom. intros [= <- _]; cbn. split; [reflexivity|lia].
  - cbn [Stream.Read_loop]. destruct (0 <? room)%nat eqn:Hroom.
    + destruct (select2 _ _ _); [|intros [= <- _]; cbn; auto|discriminate].
      destruct (Nat.min room (length data) <? length data)%nat eqn:Hcut.
      * apply Nat.ltb_lt in Hcut. intros [= <- _]; cbn. split; [reflexivity|].
        rewrite length_app, length_take. lia.
      * apply Nat.ltb_ge in Hcut. apply IH.
        -- rewrite length_app, length_take. lia.
        -- lia.
    + apply Nat.ltb_ge in Hroom. intros [= <- _]; cbn. split; [reflexivity|lia].
Qed.

(** Whenever [Read] returns an error, the stream was closed when the call
    began and the call took the way out at its top. *)
Lemma Read_error_inv (pick : nat -> bool) (lenb : nat) (s s' : Stream.t)
    (r : Stream.read_result) (e : error) :
  Stream.Read pick lenb s = Ret (r, s') -> Stream.read_err r = Some e ->
  Stream.closed s = true /\ r = Stream.mkRead 0 (Some EOF) [] /\ s' = s.
Proof.
  unfold Stream.Read. destruct (Stream.closed s) eqn:Hc.
  - intros [= <- <-] _. auto.
  - destruct (0 <? length (Stream.buf s))%nat eqn:Hlen.
    + destruct (Buffer_Read lenb (Stream.buf s)) as [[got [err|]] bf] eqn:Hb.
      * apply Buffer_Read_error in Hb as [Hnil _]. rewrite Hnil in Hlen. discriminate.
      * destruct (lenb <=? length got)%nat eqn:Hfull.
        -- intros [= <- _]. discriminate.
        -- intros Hloop He. apply Nat.leb_gt in Hfull.
           apply Read_loop_result in Hloop as [Hnone _]; [congruence|reflexivity|lia].
    + intros Hloop He.
      apply Read_loop_result in Hloop as [Hnone _]; [congruence|reflexivity|lia].
Qed.

(** C2, as the code has it: once [closed] has fired, a [Read] returns
    [(0, io.EOF)] at once and leaves the residual buffer and the inbox as
    they were; and whatever the state, a [Read] that returns an error has
    copied no byte, so a [Read] that copied at least one byte returns no
    error. *)
Theorem Read_after_closed (pick : nat -> bool) (lenb : nat) (s : Stream.t) :
  (Stream.closed s = true ->
   Stream.Read pick lenb s = Ret (Stream.mkRead 0 (Some EOF) [], s)) /\
  (forall (r : Stream.read_result) (s' : Stream.t),
     Stream.Read pick lenb s = Ret (r, s') ->
     (Stream.read_err r <> None -> Stream.n_read r = O /\ Stream.copied r = []) /\
     (Stream.copied r <> [] -> Stream.read_err r = None)).
Proof.
  split.
  - intros Hc. unfold Stream.Read. rewrite Hc. reflexivity.
  - intros r s' Hread.
    assert (Herr : Stream.read_err r <> None ->
                   Stream.n_read r = O /\ Stream.copied r = []).
    { destruct (Stream.read_err r) as [e|] eqn:He; [|congruence]. intros _.
      destruct (Read_error_inv _ _ _ _ _ _ Hread He) as (_ & -> & _). auto. }
    split; [exact Herr|].
    intros Hcopied. destruct (Stream.read_err r) eqn:He; [|reflexivity].
    destruct Herr as [_ Hnil]; congruence.
Qed.

Lemma Read_after_closed_witness :
  Stream.Read (fun _ => true) 10
    (Stream.mk 1 "" 9 true (Chan [[x64; x65]] 8 true) [x62; x63])
  = Ret (Stream.mkRead 0 (Some EOF) [],
         Stream.mk 1 "" 9 true (Chan [[x64; x65]] 8 true) [x62; x63]).
Proof.
  apply (proj1 (Read_after_closed (fun _ => true) 10
                  (Stream.mk 1 "" 9 true (Chan [[x64; x65]] 8 true) [x62; x63]))).
  reflexivity.
Defined.

(** C2, as the claim has it, fails: a stream receives "abc" and "de", a
    one-byte [Read] takes "a" and leaves "bc" as residue, and the stream is
    closed. The next [Read], into ten bytes, returns [(0, io.EOF)] with
    "bc" still in the buffer and "de" still in the inbox. *)
Lemma Read_after_Close_leaves_data :
  exists (s1 s2 s3 s4 : Stream.t) (r : Stream.read_result) (sent : list msg.t),
    Stream.receive true [x61; x62; x63] (Stream.newStream 1 "" false) = Ret s1 /\
    Stream.receive true [x64; x65] s1 = Ret s2 /\
    Stream.Read (fun _ => true) 1 s2 = Ret (r, s3) /\
    Stream.copied r = [x61] /\
    Stream.Close true s3 = Ret (None, s4, sent) /\
    Stream.buf s4 = [x62; x63] /\
    queue (Stream.data_in s4) = [[x64; x65]] /\
    Stream.Read (fun _ => true) 10 s4 = Ret (Stream.mkRead 0 (Some EOF) [], s4).
Proof.
  do 6 eexists. repeat split; vm_compute; reflexivity.
Qed.

(** ** Streams: writing, receiving, closing *)

Lemma Write_serializer_away (pick : bool) (b : list byte) (s : Stream.t) :
  Stream.closed s = true ->
  Stream.Write false pick b s = Ret (O, Some (errorString "stream closed"), []).
Proof. intros Hc. unfold Stream.Write. rewrite Hc. reflexivity. Qed.

Lemma Write_open_accepted (pick : bool) (b : list byte) (s : Stream.t) :
  Stream.closed s = false ->
  Stream.Write true pick b s = Ret (length b, None, [msg.mk (Stream.header s) b]).
Proof. intros Hc. unfold Stream.Write. rewrite Hc. reflexivity. Qed.

Lemma Write_open_waits (pick : bool) (b : list byte) (s : Stream.t) :
  Stream.closed s = false -> Stream.Write false pick b s = Block.
Proof. intros Hc. unfold Stream.Write. rewrite Hc. reflexivity. Qed.

(** A [Write] that returns an error has handed nothing to the serializer,
    and one that returns none has handed over the whole slice in one
    message. *)
Lemma Write_result (rdy pick : bool) (b : list byte) (s : Stream.t)
    (n : nat) (err : option error) (sent : list msg.t) :
  Stream.Write rdy pick b s = Ret (n, err, sent) ->
  (err = None /\ n = length b /\ sent = [msg.mk (Stream.header s) b] /\ rdy = true) \/
  (err = Some (errorString "stream closed") /\ n = O /\ sent = [] /\
   Stream.closed s = true).
Proof.
  unfold Stream.Write. destruct rdy, (Stream.closed s), pick; cbn;
    intros [= <- <- <-]; auto 10.
Qed.

(** C6: a [Write] on a closed stream can succeed. The [select] of [Write]
    has the send and the closed signal as equal cases, so with the
    serializer waiting on [outchan] either may be taken: here the stream
    was closed by [Close], and the [Write] that follows returns [(2, nil)]
    and hands its message to the serializer. *)
Theorem Write_on_closed_stream_can_succeed :
  exists (s : Stream.t) (sent : list msg.t),
    Stream.Close true (Stream.newStream 1 "" true) = Ret (None, s, sent) /\
    Stream.closed s = true /\
    Stream.Write true true [x68; x69] s
      = Ret (2%nat, None, [msg.mk 10 [x68; x69]]).
Proof. do 2 eexists. repeat split; vm_compute; reflexivity. Qed.

(** On a closed stream with the serializer waiting, both cases of the
    [select] in [Write] are ready. *)
Lemma Write_closed_ready (pick : bool) (b : list byte) (s : Stream.t) :
  Stream.closed s = true ->
  Stream.Write true pick b s =
    if pick then Ret (length b, None, [msg.mk (Stream.header s) b])
    else Ret (O, Some (errorString "stream closed"), []).
Proof. intros Hc. unfold Stream.Write. rewrite Hc. destruct pick; reflexivity. Qed.

Lemma receive_open_room (pick : bool) (b : list byte) (s : Stream.t) :
  Stream.closed s = false -> is_closed (Stream.data_in s) = false ->
  (length (queue (Stream.data_in s)) < capacity (Stream.data_in s))%nat ->
  Stream.receive pick b s
    = Ret (Stream.with_data_in s
             (set_queue (Stream.data_in s) (queue (Stream.data_in s) ++ [b]))).
Proof.
  intros Hc Hi Hroom. apply Nat.ltb_lt in Hroom.
  unfold Stream.receive, can_send, chan_send. rewrite Hc, Hi, Hroom. reflexivity.
Qed.

(** After [Close] both cases of the [select] in [receive] are ready, and
    the send on the closed inbox is one of them. *)
Lemma receive_after_Close_cases (pick : bool) (b : list byte) (s : Stream.t) :
  Stream.closed s = true -> is_closed (Stream.data_in s) = true ->
  Stream.receive pick b s = if pick then Panic "send on closed channel" else Ret s.
Proof.
  intros Hc Hi. unfold Stream.receive, can_send, chan_send. rewrite Hc, Hi.
  destruct pick; reflexivity.
Qed.

(** C8: [receive] on a stream that [Close] has closed can panic. [Close]
    closes [data_in], and the [select] of [receive] may take the send on
    it, which is Go's panic for a send on a closed channel; only when it
    takes the closed signal is the payload dropped. *)
Theorem receive_after_Close_can_panic :
  exists (s : Stream.t) (sent : list msg.t),
    Stream.Close true (Stream.newStream 1 "" false) = Ret (None, s, sent) /\
    Stream.closed s = true /\
    is_closed (Stream.data_in s) = true /\
    Stream.receive true [x68; x69] s = Panic "send on closed channel" /\
    Stream.receive false [x68; x69] s = Ret s.
Proof. do 2 eexists. repeat split; vm_compute; reflexivity. Qed.

Lemma Stream_Close_closed (rdy : bool) (s : Stream.t) :
  Stream.closed s = true -> Stream.Close rdy s = Ret (None, s, []).
Proof. intros Hc. unfold Stream.Close. rewrite Hc. reflexivity. Qed.

(** What a first [Close] does: it marks the stream closed, closes the
    inbox, and hands a Close frame to the serializer if it is ready. *)
Lemma Stream_Close_open (rdy : bool) (s : Stream.t) :
  Stream.closed s = false -> is_closed (Stream.data_in s) = false ->
  Stream.Close rdy s =
    Ret (None,
         Stream.mk (Stream.id s) (Stream.name s) (Stream.header s) true
           (Chan (queue (Stream.data_in s)) (capacity (Stream.data_in s)) true)
           (Stream.buf s),
         if rdy then [msg.mk (Z.lor (u64 (Z.shiftl (Stream.id s) 3)) Tag.Close) []]
         else []).
Proof.
  intros Hc Hi. unfold Stream.Close, chan_close. rewrite Hc. cbn. rewrite Hi.
  reflexivity.
Qed.

Lemma Stream_Close_returns (rdy : bool) (s s' : Stream.t) (e : option error)
    (sent : list msg.t) :
  Stream.Close rdy s = Ret (e, s', sent) -> e = None /\ Stream.closed s' = true.
Proof.
  unfold Stream.Close. destruct (Stream.closed s) eqn:Hc.
  - intros [= <- <- _]. auto.
  - unfold chan_close. cbn. destruct (is_closed (Stream.data_in s)); [discriminate|].
    intros [= <- <- _]. auto.
Qed.

(** ** The multiplexer: calls on the program state *)

Lemma bind_Ret {A B : Type} (c : M A) (k : A -> M B) (w w' : World) (a : A) :
  c w = Ret (a, w') -> (c ≫= k) w = k a w'.
Proof. intros H. unfold mbind, M_bind, bind. rewrite H. reflexivity. Qed.

Lemma bind_inv {A B : Type} (c : M A) (k : A -> M B) (w w2 : World) (b : B) :
  (c ≫= k) w = Ret (b, w2) ->
  exists (a : A) (w1 : World), c w = Ret (a, w1) /\ k a w1 = Ret (b, w2).
Proof.
  unfold mbind, M_bind, bind. destruct (c w) as [[a w1]| |]; [|discriminate..].
  intros H. exists a, w1. auto.
Qed.

(** A [Close] through a pointer touches the stream it points at and
    [outchan], nothing else. *)
Lemma Stream_Close_at (rdy : bool) (p : nat) (w w' : World) (e : option error) :
  Stream_Close rdy p w = Ret (e, w') ->
  exists (s s' : Stream.t) (sent : list msg.t),
    heap w !! p = Some s /\
    Stream.Close rdy s = Ret (e, s', sent) /\
    w' = mkWorld (<[p := s']> (heap w)) (mp w) (outchan w ++ sent) (handlers w).
Proof.
  unfold Stream_Close. run_M.
  destruct (heap w !! p) as [s|] eqn:Hs; [|discriminate].
  destruct (Stream.Close rdy s) as [[[e' s'] sent]| |] eqn:Hc; [|discriminate..].
  intros [= <- <-]. exists s, s', sent. auto.
Qed.

Lemma Stream_Close_at_closed (rdy : bool) (p : nat) (w : World) (s : Stream.t) :
  heap w !! p = Some s -> Stream.closed s = true ->
  Stream_Close rdy p w = Ret (None, w).
Proof.
  intros Hs Hc. unfold Stream_Close. run_M. rewrite Hs.
  rewrite (Stream_Close_closed rdy s Hc). cbn.
  rewrite list_insert_id by exact Hs. rewrite app_nil_r. destruct w; reflexivity.
Qed.

Lemma Close_range_mp (rdy : nat -> bool) (l : list (Z * nat)) :
  forall (w w' : World) (e : option error),
    Close_range rdy l w = Ret (e, w') -> mp w' = mp w /\ e = None.
Proof.
  induction l as [|[ch p] l IH]; intros w w' e.
  - cbn. intros [= <- <-]. auto.
  - cbn [Close_range]. intros H.
    apply bind_inv in H as (err & w1 & Hc & Hk).
    apply Stream_Close_at in Hc as (s & s' & sent & _ & Hs & ->).
    apply Stream_Close_returns in Hs as [-> _].
    apply IH in Hk as [-> ->]. auto.
Qed.

(** C9: closing twice is closing once. After a [Stream.Close] that
    returned, another returns nil, leaves the stream as it is and sends
    nothing; after a [Multiplex.Close] that returned, another returns nil
    and leaves the whole program state as it is. *)
Theorem Close_idempotent :
  (forall (rdy1 rdy2 : bool) (s s1 : Stream.t) (e : option error) (sent : list msg.t),
     Stream.Close rdy1 s = Ret (e, s1, sent) ->
     Stream.Close rdy2 s1 = Ret (None, s1, [])) /\
  (forall (rdy1 rdy2 : nat -> bool) (w w1 : World) (e : option error),
     Multiplex.Close rdy1 w = Ret (e, w1) ->
     Multiplex.Close rdy2 w1 = Ret (None, w1)).
Proof.
  split.
  - intros rdy1 rdy2 s s1 e sent H.
    apply Stream_Close_returns in H as [_ Hc].
    apply Stream_Close_closed. exact Hc.
  - intros rdy1 rdy2 w w1 e H.
    assert (Hc : closed (mp w1) = true).
    { unfold Multiplex.Close, IsClosed in H. run_M.
      destruct (closed (mp w)) eqn:Hc.
      - injection H as <- <-. exact Hc.
      - destruct (Close_range rdy1 _ _) as [[e' w2]| |] eqn:Hr; [|discriminate..].
        injection H as <- <-.
        apply Close_range_mp in Hr as [-> _]. reflexivity. }
    unfold Multiplex.Close, IsClosed. run_M. rewrite Hc. reflexivity.
Qed.

Lemma Close_idempotent_witness :
  Stream.Close false (Stream.mk 3 "" 26 true (Chan [] 8 true) [])
    = Ret (None, Stream.mk 3 "" 26 true (Chan [] 8 true) [], []) /\
  Multiplex.Close (fun _ => false)
    (mkWorld [Stream.mk 3 "" 26 true (Chan [] 8 true) []]
       (mk [] 4 true true {[3 := O]}) [msg.mk 28 []] [])
    = Ret (None,
           mkWorld [Stream.mk 3 "" 26 true (Chan [] 8 true) []]
             (mk [] 4 true true {[3 := O]}) [msg.mk 28 []] []).
Proof.
  split.
  - apply (proj1 Close_idempotent true false (Stream.newStream 3 "" true) _ None
             [msg.mk 28 []]).
    reflexivity.
  - apply (proj2 Close_idempotent (fun _ => true) (fun _ => false)
             (mkWorld [Stream.newStream 3 "" true]
                (mk [] 4 false true {[3 := O]}) [] []) _ None).
    vm_compute. reflexivity.
Defined.

(** ** The Close frame and its tag *)

Lemma u64_shiftl3_low (z : Z) : Z.land (u64 (Z.shiftl z 3)) 7 = 0.
Proof.
  change 7 with (Z.ones 3). rewrite Z.land_ones by lia.
  unfold u64. rewrite Z.shiftl_mul_pow2 by lia.
  change (2 ^ 3) with 8. change (2 ^ 64) with (8 * 2 ^ 61).
  rewrite Z.mul_comm, Zmult_mod_distr_l.
  rewrite Z.mul_comm. apply Z.mod_mul. lia.
Qed.

Lemma tag_of_header (z t : Z) : 0 <= t < 8 -> Z.land (Z.lor (u64 (Z.shiftl z 3)) t) 7 = t.
Proof.
  intros Ht. rewrite Z.land_lor_distr_l, u64_shiftl3_low. cbn [Z.lor].
  change 7 with (Z.ones 3). rewrite Z.land_ones by lia.
  apply Z.mod_small. change (2 ^ 3) with 8. lia.
Qed.

Lemma id_of_header (z t : Z) :
  0 <= z < 2 ^ 61 -> 0 <= t < 8 -> Z.shiftr (Z.lor (u64 (Z.shiftl z 3)) t) 3 = z.
Proof.
  intros Hz Ht. rewrite Z.shiftr_lor.
  rewrite (Z.shiftr_div_pow2 t) by lia. change (2 ^ 3) with 8.
  rewrite (Z.div_small t) by lia. rewrite Z.lor_0_r.
  rewrite u64_small.
  - rewrite Z.shiftr_shiftl_l by lia. apply Z.shiftl_0_r.
  - rewrite Z.shiftl_mul_pow2 by lia. change (2 ^ 3) with 8.
    change (2 ^ 64) with (2 ^ 61 * 8). lia.
Qed.

(** C1, as the code has it: [Close] is the fifth constant of the [iota]
    block, so its value is 4. For every stream that is still open, with
    the serializer ready, [Stream.Close] hands over one message with an
    empty payload whose header is [(id << 3) | 4], and the tag the
    dispatch loop takes from that header, [header & 7], is [Close]; for
    id 42 the header is 340. *)
Theorem Close_frame_header (s : Stream.t) :
  Stream.closed s = false ->
  is_closed (Stream.data_in s) = false ->
  Tag.Close = 4 /\
  (exists s' : Stream.t,
     Stream.Close true s
       = Ret (None, s', [msg.mk (Z.lor (u64 (Z.shiftl (Stream.id s) 3)) 4) []])) /\
  Z.land (Z.lor (u64 (Z.shiftl (Stream.id s) 3)) 4) 7 = Tag.Close /\
  (Stream.id s = 42 -> Z.lor (u64 (Z.shiftl (Stream.id s) 3)) 4 = 340).
Proof.
  intros Hc Hi. split; [reflexivity|]. split; [|split].
  - eexists. rewrite (Stream_Close_open true s Hc Hi). reflexivity.
  - change Tag.Close with 4. apply tag_of_header. lia.
  - intros ->. reflexivity.
Qed.

Lemma Close_frame_header_witness :
  Tag.Close = 4 /\
  (exists s' : Stream.t,
     Stream.Close true (Stream.newStream 42 "" true)
       = Ret (None, s', [msg.mk (Z.lor (u64 (Z.shiftl 42 3)) 4) []])) /\
  Z.land (Z.lor (u64 (Z.shiftl 42 3)) 4) 7 = Tag.Close /\
  (42 = 42 -> Z.lor (u64 (Z.shiftl 42 3)) 4 = 340).
Proof.
  apply (Close_frame_header (Stream.newStream 42 "" true)); reflexivity.
Defined.

(** C1, as the claim has it, fails at id 42: the header [Stream.Close]
    emits is 340, not [(42 << 3) | 5 = 341], and the tag the dispatch loop
    compares with is not 5. *)
Lemma Close_frame_header_42_is_340 :
  Tag.Close <> 5 /\
  Z.lor (Z.shiftl 42 3) 5 = 341 /\
  exists s' : Stream.t,
    Stream.Close true (Stream.newStream 42 "" true) = Ret (None, s', [msg.mk 340 []]).
Proof.
  split; [discriminate|]. split; [reflexivity|]. eexists. vm_compute. reflexivity.
Qed.

(** ** Identifier allocation *)

Lemma nextChanID_step (w : World) :
  nextChanID w =
    Ret (if initiator (mp w) then u64 (nextID (mp w) + 1) else nextID (mp w),
         with_mp w (with_nextID (mp w) (u64 (nextID (mp w) + 2)))).
Proof. reflexivity. Qed.

Lemma u64_range (z : Z) : 0 <= u64 z < 2 ^ 64.
Proof. unfold u64. apply Z.mod_pos_bound. lia. Qed.

(** While the counter has not wrapped, the ids issued go up in steps of
    two from the counter, plus one on the initiator's side. *)
Lemma issue_ids (k : nat) :
  forall w : World,
    0 <= nextID (mp w) ->
    nextID (mp w) + 2 * Z.of_nat k <= 2 ^ 64 ->
    exists (ids : list Z) (w' : World),
      issue k w = Ret (ids, w') /\
      length ids = k /\
      forall (i : nat) (a : Z),
        ids !! i = Some a ->
        a = nextID (mp w) + 2 * Z.of_nat i + (if initiator (mp w) then 1 else 0).
Proof.
  induction k as [|k IH]; intros w Hlo Hhi.
  - exists [], w. split; [reflexivity|]. split; [reflexivity|].
    intros i a Hi. rewrite lookup_nil in Hi. discriminate.
  - set (w1 := with_mp w (with_nextID (mp w) (u64 (nextID (mp w) + 2)))).
    destruct (IH w1) as (rest & w' & Hrest & Hlen & Hids).
    + apply u64_range.
    + cbn. destruct k as [|k].
      * pose proof (u64_range (nextID (mp w) + 2)). lia.
      * rewrite u64_small by lia. lia.
    + exists ((if initiator (mp w) then u64 (nextID (mp w) + 1) else nextID (mp w)) :: rest), w'.
      split; [|split].
      * cbn [issue]. rewrite (bind_Ret _ _ _ _ _ (nextChanID_step w)).
        fold w1. rewrite (bind_Ret _ _ _ _ _ Hrest). reflexivity.
      * cbn. rewrite Hlen. reflexivity.
      * intros [|i] a Hi.
        -- cbn in Hi. injection Hi as <-.
           destruct (initiator (mp w)); [rewrite u64_small by lia|]; lia.
        -- cbn in Hi. pose proof (lookup_lt_Some _ _ _ Hi) as Hlt.
           apply Hids in Hi. cbn in Hi.
           rewrite u64_small in Hi by lia. lia.
Qed.

(** C5: each call of [nextChanID] returns [nextID + 1] on the initiator's
    side and [nextID] on the other, and moves [nextID] on by two. A new
    multiplexer's first four ids are 1, 3, 5, 7 as initiator and 0, 2, 4, 6
    otherwise. For every run of up to 2^63 calls on a new multiplexer, the
    call number [i] (from 0) returns [2 i + 1], respectively [2 i], so the
    ids grow strictly and none comes twice. *)
Theorem nextChanID_parity (con : list byte) (init : bool) (k : nat) :
  Z.of_nat k <= 2 ^ 63 ->
  (forall w : World,
     nextChanID w =
       Ret (if initiator (mp w) then u64 (nextID (mp w) + 1) else nextID (mp w),
            with_mp w (with_nextID (mp w) (u64 (nextID (mp w) + 2))))) /\
  (exists w' : World, issue 4 (NewMultiplex con true) = Ret ([1; 3; 5; 7], w')) /\
  (exists w' : World, issue 4 (NewMultiplex con false) = Ret ([0; 2; 4; 6], w')) /\
  exists (ids : list Z) (w' : World),
    issue k (NewMultiplex con init) = Ret (ids, w') /\
    length ids = k /\
    (forall (i : nat) (a : Z),
       ids !! i = Some a -> a = 2 * Z.of_nat i + (if init then 1 else 0)) /\
    (forall (i j : nat) (a b : Z),
       (i < j)%nat -> ids !! i = Some a -> ids !! j = Some b -> a < b).
Proof.
  intros Hk. split; [exact nextChanID_step|].
  split; [eexists; reflexivity|]. split; [eexists; reflexivity|].
  destruct (issue_ids k (NewMultiplex con init)) as (ids & w' & Hrun & Hlen & Hids).
  - cbn. lia.
  - cbn. lia.
  - exists ids, w'. split; [exact Hrun|]. split; [exact Hlen|]. cbn in Hids. split.
    + intros i a Hi. apply Hids in Hi. lia.
    + intros i j a b Hij Hi Hj. apply Hids in Hi, Hj. destruct init; lia.
Qed.

Lemma nextChanID_parity_witness :
  exists (ids : list Z) (w' : World),
    issue 6 (NewMultiplex [] true) = Ret (ids, w') /\
    length ids = 6%nat /\
    (forall (i : nat) (a : Z), ids !! i = Some a -> a = 2 * Z.of_nat i + 1) /\
    (forall (i j : nat) (a b : Z),
       (i < j)%nat -> ids !! i = Some a -> ids !! j = Some b -> a < b).
Proof.
  apply (nextChanID_parity [] true 6). vm_compute. discriminate.
Defined.

(** At the wrap of the counter an id comes again: 2^63 calls are the
    reach of a 64-bit counter moved by two. *)
Lemma nextChanID_wraps :
  exists w' : World,
    nextChanID (mkWorld [] (mk [] (2 ^ 64 - 2) false true ∅) [] [])
      = Ret (2 ^ 64 - 1, w') /\
    nextID (mp w') = 0.
Proof. eexists. rewrite nextChanID_step. split; reflexivity. Qed.

(** ** The dispatch loop: a Close frame for a stream that is not there *)



(** ** Reading frames off the transport *)

Lemma DecodeVarint_encoded (x : Z) (bs rest : list byte) :
  0 <= x < 2 ^ 64 -> EncodeVarint x = Some bs ->
  DecodeVarint (bs ++ rest) = (x, length bs, None, rest).
Proof.
  intros Hx Henc.
  assert (Hx70 : 0 <= x < 2 ^ (7 * Z.of_nat 10)).
  { change (2 ^ (7 * Z.of_nat 10)) with (2 ^ 64 * 64). lia. }
  assert (Hbs : bs = varint_groups 10 x).
  { pose proof (EncodeVarint_groups x Hx70) as Hg. congruence. }
  subst bs. clear Henc.
  unfold DecodeVarint.
  rewrite (DecodeVarint_loop_groups 10 x 0 0 0 rest); [|lia|exact Hx70|lia|].
  - rewrite Z.shiftl_0_r. reflexivity.
  - change (2 ^ (64 - 0)) with (2 ^ 64). lia.
Qed.

(** A reader that ends inside an encoding makes the decoder return
    [io.EOF]: every byte before the last carries the continuation bit. *)
Lemma DecodeVarint_loop_cut (k : nat) :
  forall (x shift acc : Z) (n c : nat),
    (1 <= k)%nat ->
    0 <= x < 2 ^ (7 * Z.of_nat k) ->
    0 <= shift < 64 ->
    x < 2 ^ (64 - shift) ->
    (c < length (varint_groups k x))%nat ->
    DecodeVarint_loop shift acc n (take c (varint_groups k x)) = (0, O, Some EOF, []).
Proof.
  induction k as [|k IH]; intros x shift acc n c Hk Hx Hs Hfit Hc; [lia|].
  destruct c as [|c].
  - rewrite take_0. cbn [DecodeVarint_loop].
    destruct (Z.ltb_spec shift 64); [reflexivity|lia].
  - cbn [varint_groups] in *. destruct (127 <? x) eqn:Hbig.
    + apply Z.ltb_lt in Hbig.
      pose proof (groups_left k x Hbig (proj2 Hx)) as Hk'.
      rewrite pow7_step in Hx.
      assert (Hs' : shift + 7 < 64).
      { destruct (Z.le_gt_cases 57 shift) as [Hhi|]; [|lia].
        assert (2 ^ (64 - shift) <= 2 ^ 7) by (apply Z.pow_le_mono_r; lia).
        change (2 ^ 7) with 128 in *. lia. }
      destruct (continuation_byte x (proj1 Hx)) as [_ Hhigh].
      rewrite firstn_cons, DecodeVarint_loop_continues.
      * apply IH; [exact Hk'|apply shiftr7_bound; exact Hx|lia| |cbn in Hc; lia].
        apply (shiftr7_bound x (64 - (shift + 7))).
        replace (128 * 2 ^ (64 - (shift + 7))) with (2 ^ (64 - shift)); [lia|].
        change 128 with (2 ^ 7). rewrite <- Z.pow_add_r by lia. f_equal. lia.
      * lia.
      * unfold continues. rewrite Hhigh. discriminate.
    + cbn in Hc. lia.
Qed.

Lemma DecodeVarint_cut (x : Z) (bs : list byte) (c : nat) :
  0 <= x < 2 ^ 64 -> EncodeVarint x = Some bs -> (c < length bs)%nat ->
  DecodeVarint (take c bs) = (0, O, Some EOF, []).
Proof.
  intros Hx Henc Hc.
  assert (Hx70 : 0 <= x < 2 ^ (7 * Z.of_nat 10)).
  { change (2 ^ (7 * Z.of_nat 10)) with (2 ^ 64 * 64). lia. }
  assert (Hbs : bs = varint_groups 10 x).
  { pose proof (EncodeVarint_groups x Hx70) as Hg. congruence. }
  subst bs. clear Henc.
  apply DecodeVarint_loop_cut; [lia|exact Hx70|lia| |exact Hc].
  change (2 ^ (64 - 0)) with (2 ^ 64). lia.
Qed.

(** The decoder never gives bytes back, and a call without error has
    taken at least one. *)
Lemma DecodeVarint_loop_consumes (r : list byte) :
  forall (shift x : Z) (n m : nat) (v : Z) (err : option error) (r' : list byte),
    DecodeVarint_loop shift x n r = (v, m, err, r') ->
    (length r' <= length r)%nat /\ (err = None -> (length r' < length r)%nat).
Proof.
  induction r as [|val r IH]; intros shift x n m v err r'; cbn [DecodeVarint_loop].
  - destruct (shift <? 64); intros [= _ _ <- <-]; split; [lia|discriminate|lia|discriminate].
  - destruct (shift <? 64).
    + cbv zeta. destruct (Z.land (byte_val val) 128 =? 0).
      * intros [= _ _ <- <-]. cbn. split; lia.
      * intros H. apply IH in H as [Hle Hlt]. cbn. split; [lia|].
        intros He. specialize (Hlt He). lia.
    + intros [= _ _ <- <-]. split; [lia|discriminate].
Qed.

Lemma ReadFull_consumes (l : nat) (r got r' : list byte) (err : option error) :
  ReadFull l r = (got, err, r') -> (length r' <= length r)%nat.
Proof.
  unfold ReadFull. destruct (l <=? length r)%nat.
  - intros [= _ _ <-]. rewrite length_drop. lia.
  - destruct r; intros [= _ _ <-]; cbn; lia.
Qed.

Lemma readNextHeader_eq (w : World) :
  readNextHeader w =
    let '(h, _, err, r) := DecodeVarint (con (mp w)) in
    Ret (match err with
         | Some e => (0, 0, Some e)
         | None => (Z.shiftr h 3, Z.land h 7, None)
         end,
         with_mp w (with_con (mp w) r)).
Proof.
  unfold readNextHeader. run_M.
  destruct (DecodeVarint (con (mp w))) as [[[h n] [e|]] r]; reflexivity.
Qed.

Lemma readNext_eq (mem : Z -> bool) (w : World) :
  readNext mem w =
    let '(l, _, err, r) := DecodeVarint (con (mp w)) in
    match err with
    | Some e => Ret (None, Some e, with_mp w (with_con (mp w) r))
    | None =>
        if maxAlloc <? l then Panic "makeslice: len out of range"
        else if (l =? 0) || mem l then
          let '(got, err, r') := ReadFull (Z.to_nat l) r in
          match err with
          | Some e => Ret (None, Some e, with_mp w (with_con (mp w) r'))
          | None =>
              if bool_decide (Z.of_nat (length got) = l)
              then Ret (Some got, None, with_mp w (with_con (mp w) r'))
              else Panic "NOT THE SAME"
          end
        else Panic "out of memory"
    end.
Proof.
  unfold readNext. run_M.
  destruct (DecodeVarint (con (mp w))) as [[[l n] [e|]] r]; [reflexivity|].
  cbn. destruct (maxAlloc <? l); [reflexivity|].
  destruct ((l =? 0) || mem l); [|reflexivity].
  destruct (ReadFull (Z.to_nat l) r) as [[got [e|]] r']; [reflexivity|].
  cbn. destruct (bool_decide _); reflexivity.
Qed.

(** The calls made on a stream by the loop leave the multiplexer's own
    fields alone. *)
Lemma Stream_receive_at (pick : bool) (p : nat) (b : list byte) (w w' : World) (u : unit) :
  Stream_receive pick p b w = Ret (u, w') ->
  exists s s' : Stream.t,
    heap w !! p = Some s /\
    Stream.receive pick b s = Ret s' /\
    w' = mkWorld (<[p := s']> (heap w)) (mp w) (outchan w) (handlers w).
Proof.
  unfold Stream_receive. run_M.
  destruct (heap w !! p) as [s|] eqn:Hs; [|discriminate].
  destruct (Stream.receive pick b s) as [s'| |] eqn:Hr; [|discriminate..].
  intros [= <-]. exists s, s'. auto.
Qed.

Lemma dispatch_con (rdy pick : bool) (ch tag : Z) (b : list byte) (w w' : World) (u : unit) :
  dispatch rdy pick ch tag b w = Ret (u, w') -> con (mp w') = con (mp w).
Proof.
  unfold dispatch. intros H.
  apply bind_inv in H as (m & w1 & Hm & H). injection Hm as <- <-.
  apply bind_inv in H as ([msch skip] & w2 & Hlook & H).
  assert (Hcon : con (mp w2) = con (mp w)).
  { destruct (channels (mp w) !! ch) as [p|].
    - injection Hlook as _ _ <-. reflexivity.
    - run_M. injection Hlook as _ _ <-. reflexivity. }
  rewrite <- Hcon. clear Hlook Hcon. destruct skip.
  - injection H as _ <-. reflexivity.
  - destruct (bool_decide (tag = Tag.Close)).
    + apply bind_inv in H as (e & w3 & Hc & H).
      apply Stream_Close_at in Hc as (s & s' & sent & _ & _ & ->).
      run_M. injection H as _ <-. reflexivity.
    + apply Stream_receive_at in H as (s & s' & _ & _ & ->). reflexivity.
Qed.

(** A turn that goes round again has read at least the first byte of a
    header. *)
Lemma Serve_turn_consumes (mem : Z -> bool) (rdy pick : bool) (w w' : World) :
  Serve_turn mem rdy pick w = Ret (None, w') ->
  (length (con (mp w')) < length (con (mp w)))%nat.
Proof.
  unfold Serve_turn. intros H.
  apply bind_inv in H as ([[ch tag] err] & w1 & Hh & H).
  rewrite readNextHeader_eq in Hh.
  destruct (DecodeVarint (con (mp w))) as [[[h n] err1] r] eqn:Hd.
  apply DecodeVarint_loop_consumes in Hd as [_ Hlt].
  destruct err1 as [e|]; injection Hh as <- <- <- <-.
  { destruct (bool_decide (e = EOF)); discriminate. }
  specialize (Hlt eq_refl).
  apply bind_inv in H as ([b err] & w2 & Hn & H).
  rewrite readNext_eq in Hn. cbn in Hn.
  destruct (DecodeVarint r) as [[[l n'] err2] r2] eqn:Hd2.
  apply DecodeVarint_loop_consumes in Hd2 as [Hle2 _].
  destruct err2 as [e|].
  { injection Hn as <- <- <-. destruct (bool_decide (e = EOF)); discriminate. }
  destruct (maxAlloc <? l); [discriminate|].
  destruct ((l =? 0) || mem l); [|discriminate].
  destruct (ReadFull (Z.to_nat l) r2) as [[got err3] r3] eqn:Hf.
  apply ReadFull_consumes in Hf.
  destruct err3 as [e|].
  { injection Hn as <- <- <-. destruct (bool_decide (e = EOF)); discriminate. }
  destruct (bool_decide _); [|discriminate]. injection Hn as <- <- <-.
  apply bind_inv in H as (u & w3 & Hdis & H). injection H as <-.
  apply dispatch_con in Hdis. rewrite Hdis. cbn. lia.
Qed.

(** The loop's result does not depend on the fuel once there is more of
    it than there are bytes to read. *)
Lemma Serve_loop_fuel (mem : nat -> Z -> bool) (rdy pick : nat -> bool) (f1 : nat) :
  forall (f2 i : nat) (w : World),
    (length (con (mp w)) < f1)%nat -> (length (con (mp w)) < f2)%nat ->
    Serve_loop mem f1 rdy pick i w = Serve_loop mem f2 rdy pick i w.
Proof.
  induction f1 as [|f1 IH]; intros f2 i w H1 H2; [lia|].
  destruct f2 as [|f2]; [lia|]. cbn [Serve_loop].
  unfold mbind, M_bind, bind.
  destruct (Serve_turn (mem i) (rdy i) (pick i) w) as [[[r|] w']| |] eqn:Ht;
    try reflexivity.
  apply Serve_turn_consumes in Ht. apply IH; lia.
Qed.

(** ** The end of the transport *)

Lemma Stream_Close_at_returns (rdy : bool) (p : nat) (w : World) :
  (p < length (heap w))%nat -> Forall stream_ok (heap w) ->
  exists w' : World,
    Stream_Close rdy p w = Ret (None, w') /\
    mp w' = mp w /\
    length (heap w') = length (heap w) /\
    Forall stream_ok (heap w').
Proof.
  intros Hp Hok.
  destruct (lookup_lt_is_Some_2 _ _ Hp) as [s Hs].
  destruct (Stream.closed s) eqn:Hc.
  - exists w. rewrite (Stream_Close_at_closed rdy p w s Hs Hc). auto.
  - pose proof (Forall_lookup_1 _ _ _ _ Hok Hs Hc) as Hi.
    eexists. split.
    + unfold Stream_Close. run_M. rewrite Hs.
      rewrite (Stream_Close_open rdy s Hc Hi). cbn. reflexivity.
    + cbn. split; [reflexivity|]. split; [apply length_insert|].
      apply Forall_insert; [exact Hok|]. intros Habs. discriminate Habs.
Qed.

Lemma shutdown_range_returns (rdy : nat -> bool) (l : list (Z * nat)) :
  forall w : World,
    Forall (fun e => (e.2 < length (heap w))%nat) l ->
    Forall stream_ok (heap w) ->
    exists w' : World, shutdown_range rdy l w = Ret (tt, w') /\ mp w' = mp w.
Proof.
  induction l as [|[ch p] l IH]; intros w Hl Hok.
  - exists w. split; reflexivity.
  - apply Forall_cons in Hl as [Hp Hl]. cbn in Hp.
    destruct (Stream_Close_at_returns (rdy p) p w Hp Hok) as (w1 & Hc & Hmp & Hlen & Hok1).
    destruct (IH w1) as (w' & Hr & Hmp').
    + rewrite Hlen. exact Hl.
    + exact Hok1.
    + exists w'. split; [|congruence].
      cbn [shutdown_range]. rewrite (bind_Ret _ _ _ _ _ Hc). exact Hr.
Qed.

(** On the states the methods keep to, the deferred [shutdown] returns. *)
Lemma shutdown_returns (rdy : nat -> bool) (w : World) :
  wf w -> exists w' : World, shutdown rdy w = Ret (tt, w') /\ mp w' = mp w.
Proof.
  intros [Hok Hptr]. unfold shutdown.
  destruct (shutdown_range_returns rdy (map_to_list (channels (mp w))) w) as (w' & Hr & Hmp).
  - apply Forall_forall. intros [ch p] Hin. cbn.
    apply elem_of_map_to_list in Hin. eapply Hptr. exact Hin.
  - exact Hok.
  - exists w'. split; [|exact Hmp]. run_M. exact Hr.
Qed.

(** What the reads of one turn make of a reader that ends inside a frame,
    or just before one. Once the length has been read whole, [make] is
    called with it, and the turn goes on if the runtime gives the slice. *)
Lemma Serve_turn_truncated (mem : Z -> bool) (rdy pick : bool) (w : World)
    (header : Z) (pl hb lb : list byte) (cut : nat) :
  0 <= header < 2 ^ 64 ->
  Z.of_nat (length pl) < 2 ^ 63 ->
  EncodeVarint header = Some hb ->
  EncodeVarint (Z.of_nat (length pl)) = Some lb ->
  (cut < length (hb ++ lb ++ pl))%nat ->
  con (mp w) = take cut (hb ++ lb ++ pl) ->
  ((length hb + length lb <= cut)%nat ->
   Z.of_nat (length pl) <= maxAlloc /\ mem (Z.of_nat (length pl)) = true) ->
  Serve_turn mem rdy pick w =
    Ret (Some (if (cut <=? length hb + length lb)%nat then None
               else Some ErrUnexpectedEOF),
         with_mp w (with_con (mp w) [])).
Proof.
  intros Hh Hl Ehb Elb Hcut Hcon Hmem. rewrite !length_app in Hcut.
  unfold Serve_turn.
  destruct (Nat.lt_ge_cases cut (length hb)) as [Hin|Hout].
  - (* the reader ends inside the header *)
    rewrite take_app_le in Hcon by lia.
    erewrite bind_Ret; [|rewrite readNextHeader_eq, Hcon,
                          (DecodeVarint_cut header hb cut Hh Ehb Hin); reflexivity].
    destruct (Nat.leb_spec cut (length hb + length lb)); [reflexivity|lia].
  - rewrite take_app_ge in Hcon by lia.
    erewrite bind_Ret; [|rewrite readNextHeader_eq, Hcon,
                          (DecodeVarint_encoded header hb _ Hh Ehb); reflexivity].
    cbn iota beta.
    set (c1 := (cut - length hb)%nat) in *.
    destruct (Nat.lt_ge_cases c1 (length lb)) as [Hin1|Hout1].
    + (* the reader ends after the header, inside or before the length *)
      erewrite bind_Ret;
        [|rewrite readNext_eq; cbn [mp with_mp con with_con];
          rewrite take_app_le by lia;
          rewrite (DecodeVarint_cut (Z.of_nat (length pl)) lb c1 ltac:(lia) Elb Hin1);
          reflexivity].
      destruct (Nat.leb_spec cut (length hb + length lb)); [reflexivity|lia].
    + (* the reader ends in the payload *)
      set (c2 := (c1 - length lb)%nat).
      assert (Hc2 : (c2 < length pl)%nat) by lia.
      destruct Hmem as [Hmax Hgives]; [lia|].
      assert (Hfull : ReadFull (length pl) (take c2 pl) =
                      (take c2 pl,
                       Some (if (c2 =? 0)%nat then EOF else ErrUnexpectedEOF), [])).
      { unfold ReadFull.
        destruct (Nat.leb_spec (length pl) (length (take c2 pl))) as [Hle|_].
        - rewrite length_take in Hle. lia.
        - destruct c2 as [|c2']; [rewrite take_0; reflexivity|].
          destruct pl as [|b0 pl']; [cbn in Hc2; lia|reflexivity]. }
      erewrite bind_Ret;
        [|rewrite readNext_eq; cbn [mp with_mp con with_con];
          rewrite take_app_ge by lia;
          rewrite (DecodeVarint_encoded (Z.of_nat (length pl)) lb _ ltac:(lia) Elb);
          cbv zeta iota beta;
          destruct (Z.ltb_spec maxAlloc (Z.of_nat (length pl))) as [|_]; [lia|];
          rewrite Hgives, orb_true_r, Nat2Z.id; fold c2; rewrite Hfull; reflexivity].
      cbn iota beta.
      destruct (Nat.leb_spec cut (length hb + length lb)) as [Hle|Hgt].
      * replace c2 with O by lia. reflexivity.
      * destruct (Nat.eqb_spec c2 0) as [Hz|_]; [lia|]. reflexivity.
Qed.

Lemma wf_with_con (w : World) (r : list byte) :
  wf w -> wf (with_mp w (with_con (mp w) r)).
Proof. intros [Hok Hptr]. split; [exact Hok|exact Hptr]. Qed.

(** C7, as the code has it: when the transport ends [cut] bytes into a
    frame (header varint, length varint, payload), [Serve] returns nil if
    no payload byte was reached, that is on the frame boundary, inside the
    header, between header and length, inside the length, and right after
    the length of a frame that has a payload; it returns
    [io.ErrUnexpectedEOF] if at least one payload byte was reached but not
    all of them. Where the length was read whole, this is under the
    condition that [make] gives the slice for the payload: the announced
    length is at most [maxAlloc] and the runtime has the memory. *)
Theorem Serve_truncated_frame (mem : nat -> Z -> bool)
    (rdy pick rdy_sd : nat -> bool) (w : World)
    (header : Z) (pl hb lb : list byte) (cut : nat) :
  wf w ->
  0 <= header < 2 ^ 64 ->
  Z.of_nat (length pl) < 2 ^ 63 ->
  EncodeVarint header = Some hb ->
  EncodeVarint (Z.of_nat (length pl)) = Some lb ->
  (cut < length (hb ++ lb ++ pl))%nat ->
  con (mp w) = take cut (hb ++ lb ++ pl) ->
  ((length hb + length lb <= cut)%nat ->
   Z.of_nat (length pl) <= maxAlloc /\ mem O (Z.of_nat (length pl)) = true) ->
  exists w' : World,
    Serve mem rdy pick rdy_sd w =
      Ret (if (cut <=? length hb + length lb)%nat then None
           else Some ErrUnexpectedEOF, w').
Proof.
  intros Hwf Hh Hl Ehb Elb Hcut Hcon Hmem.
  pose proof (Serve_turn_truncated (mem O) (rdy O) (pick O) w header pl hb lb cut
                Hh Hl Ehb Elb Hcut Hcon Hmem) as Hturn.
  destruct (shutdown_returns rdy_sd _ (wf_with_con w [] Hwf)) as (w' & Hsd & _).
  exists w'. unfold Serve.
  erewrite bind_Ret; [|reflexivity].
  erewrite bind_Ret; [|cbn [Serve_loop]; rewrite (bind_Ret _ _ _ _ _ Hturn); reflexivity].
  rewrite (bind_Ret _ _ _ _ _ Hsd). reflexivity.
Qed.

Lemma Serve_truncated_frame_witness :
  exists w' : World,
    Serve (fun _ _ => true) (fun _ => true) (fun _ => true) (fun _ => true)
      (NewMultiplex [x0a; x03; x61] false)
    = Ret (Some ErrUnexpectedEOF, w').
Proof.
  apply (Serve_truncated_frame (fun _ _ => true)
           (fun _ => true) (fun _ => true) (fun _ => true)
           (NewMultiplex [x0a; x03; x61] false) 10 [x61; x62; x63] [x0a] [x03] 3).
  - split; [constructor|]. intros ch p Hp. cbn in Hp.
    rewrite lookup_empty in Hp. discriminate Hp.
  - lia.
  - vm_compute. reflexivity.
  - reflexivity.
  - reflexivity.
  - vm_compute. lia.
  - reflexivity.
  - intros _. split; [vm_compute; discriminate|reflexivity].
Defined.

(** C7, as the claim has it, fails: the transport delivers the header of
    a frame for stream 1, or that header and the length 3, and ends. Both
    ends are inside a frame, and [Serve] returns nil. The one [make] is of
    three bytes, which the runtime gives. *)
Lemma Serve_mid_frame_EOF_is_success :
  Serve (fun _ _ => true) (fun _ => true) (fun _ => true) (fun _ => true)
    (NewMultiplex [x0a] false)
    = Ret (None, NewMultiplex [] false) /\
  Serve (fun _ _ => true) (fun _ => true) (fun _ => true) (fun _ => true)
    (NewMultiplex [x0a; x03] false)
    = Ret (None, NewMultiplex [] false).
Proof. split; vm_compute; reflexivity. Qed.

(** When the length of a frame has been read whole and [make] does not
    give a slice of that length, [Serve] does not return, whatever
    follows the length on the transport. *)
Lemma Serve_make_refused (mem : nat -> Z -> bool) (rdy pick rdy_sd : nat -> bool)
    (w : World) (header l : Z) (hb lb rest : list byte) :
  0 <= header < 2 ^ 64 -> 0 <= l < 2 ^ 64 ->
  EncodeVarint header = Some hb -> EncodeVarint l = Some lb ->
  con (mp w) = hb ++ lb ++ rest ->
  maxAlloc < l \/ (l <> 0 /\ mem O l = false) ->
  Serve mem rdy pick rdy_sd w =
    Panic (if maxAlloc <? l then "makeslice: len out of range" else "out of memory").
Proof.
  intros Hh Hl Ehb Elb Hcon Hno.
  assert (Hturn : Serve_turn (mem O) (rdy O) (pick O) w =
                  Panic (if maxAlloc <? l then "makeslice: len out of range"
                         else "out of memory")).
  { unfold Serve_turn.
    erewrite bind_Ret; [|rewrite readNextHeader_eq, Hcon,
                          (DecodeVarint_encoded header hb _ Hh Ehb); reflexivity].
    cbn iota beta. unfold mbind, M_bind, bind.
    rewrite readNext_eq. cbn [mp with_mp con with_con].
    rewrite (DecodeVarint_encoded l lb _ Hl Elb). cbv zeta iota beta.
    destruct (Z.ltb_spec maxAlloc l) as [|Hle]; [reflexivity|].
    destruct Hno as [Hgt|[Hnz Hm]]; [lia|].
    rewrite Hm. destruct (Z.eqb_spec l 0) as [|_]; [contradiction|]. reflexivity. }
  unfold Serve, mbind, M_bind, bind, get_mp. cbn [Serve_loop].
  unfold mbind, M_bind, bind. rewrite Hturn. reflexivity.
Qed.

(** A length above [maxAlloc] ends the program in [make], whatever
    follows it: here the header of a frame for stream 1 and the length
    2^62, after which the transport ends. *)
Example Serve_length_above_maxAlloc (mem : nat -> Z -> bool) :
  Serve mem (fun _ => true) (fun _ => true) (fun _ => true)
    (NewMultiplex [x0a; x80; x80; x80; x80; x80; x80; x80; x80; x40] false)
    = Panic "makeslice: len out of range".
Proof. reflexivity. Qed.

(** ** Whole frames, and turns before the last *)

(** A turn that finds a whole frame on the transport hands its stream id,
    tag and payload to [dispatch] and goes round again. *)
Lemma Serve_turn_frame (mem : Z -> bool) (rdy pick : bool) (w : World)
    (header : Z) (pl hb lb rest : list byte) :
  0 <= header < 2 ^ 64 ->
  Z.of_nat (length pl) <= maxAlloc ->
  (Z.of_nat (length pl) =? 0) || mem (Z.of_nat (length pl)) = true ->
  EncodeVarint header = Some hb ->
  EncodeVarint (Z.of_nat (length pl)) = Some lb ->
  con (mp w) = hb ++ lb ++ pl ++ rest ->
  Serve_turn mem rdy pick w =
    (dispatch rdy pick (Z.shiftr header 3) (Z.land header 7) pl ≫= fun _ => mret None)
      (with_mp w (with_con (mp w) rest)).
Proof.
  intros Hh Hl Hgives Ehb Elb Hcon. unfold Serve_turn.
  assert (Hl64 : 0 <= Z.of_nat (length pl) < 2 ^ 64) by (unfold maxAlloc in Hl; lia).
  erewrite bind_Ret; [|rewrite readNextHeader_eq, Hcon,
                        (DecodeVarint_encoded header hb _ Hh Ehb); reflexivity].
  cbn iota beta.
  assert (Hfull : ReadFull (length pl) (pl ++ rest) = (pl, None, rest)).
  { unfold ReadFull.
    destruct (Nat.leb_spec (length pl) (length (pl ++ rest))) as [_|Hlt].
    - rewrite take_app_length, drop_app_length. reflexivity.
    - rewrite length_app in Hlt. lia. }
  erewrite bind_Ret;
    [|rewrite readNext_eq; cbn [mp with_mp con with_con];
      rewrite (DecodeVarint_encoded (Z.of_nat (length pl)) lb _ Hl64 Elb);
      cbv zeta iota beta;
      destruct (Z.ltb_spec maxAlloc (Z.of_nat (length pl))) as [|_]; [lia|];
      rewrite Hgives, Nat2Z.id, Hfull; cbv iota beta;
      rewrite bool_decide_eq_true_2 by reflexivity; reflexivity].
  reflexivity.
Qed.

Lemma Serve_loop_shift (mem : nat -> Z -> bool) (rdy pick : nat -> bool) (fuel : nat) :
  forall (i : nat) (w : World),
    Serve_loop mem fuel rdy pick (S i) w =
    Serve_loop (fun j => mem (S j)) fuel
      (fun j => rdy (S j)) (fun j => pick (S j)) i w.
Proof.
  induction fuel as [|fuel IH]; intros i w; [reflexivity|].
  cbn [Serve_loop]. unfold mbind, M_bind, bind.
  destruct (Serve_turn (mem (S i)) (rdy (S i)) (pick (S i)) w) as [[[r|] w']| |];
    try reflexivity.
  apply IH.
Qed.

(** After a turn that went round, [Serve] goes on as [Serve] would from
    the state reached, with the rest of the environment: what is proved
    of [Serve] on the last frame holds after any turns before it. *)
Lemma Serve_after_turn (mem : nat -> Z -> bool) (rdy pick rdy_sd : nat -> bool)
    (w w1 : World) :
  Serve_turn (mem O) (rdy O) (pick O) w = Ret (None, w1) ->
  Serve mem rdy pick rdy_sd w =
  Serve (fun j => mem (S j)) (fun j => rdy (S j)) (fun j => pick (S j)) rdy_sd w1.
Proof.
  intros Hturn. pose proof (Serve_turn_consumes _ _ _ _ _ Hturn) as Hlt.
  assert (Hloop : Serve_loop mem (S (length (con (mp w)))) rdy pick 0 w =
                  Serve_loop (fun j => mem (S j)) (S (length (con (mp w1))))
                    (fun j => rdy (S j)) (fun j => pick (S j)) 0 w1).
  { transitivity (Serve_loop mem (length (con (mp w))) rdy pick 1 w1).
    - cbn [Serve_loop]. rewrite (bind_Ret _ _ _ _ _ Hturn). reflexivity.
    - rewrite Serve_loop_shift. apply Serve_loop_fuel; lia. }
  unfold Serve, mbind, M_bind, bind, get_mp. rewrite Hloop. reflexivity.
Qed.

(** ** States the methods keep to *)

Lemma stream_ok_newStream (id : Z) (name : string) (initiator : bool) :
  stream_ok (Stream.newStream id name initiator).
Proof. intros _. reflexivity. Qed.

Lemma receive_ok (pick : bool) (b : list byte) (s s' : Stream.t) :
  stream_ok s -> Stream.receive pick b s = Ret s' -> stream_ok s'.
Proof.
  intros Hok. unfold Stream.receive, chan_send.
  destruct (select2 _ _ _); [|intros [= <-]; exact Hok|discriminate].
  destruct (is_closed (Stream.data_in s)) eqn:Hi; [discriminate|].
  destruct (_ <? _)%nat; [|discriminate].
  intros [= <-] _. exact Hi.
Qed.

Lemma Close_ok (rdy : bool) (s s' : Stream.t) (e : option error) (sent : list msg.t) :
  Stream.Close rdy s = Ret (e, s', sent) -> stream_ok s'.
Proof.
  intros H Hopen. apply Stream_Close_returns in H as [_ Hc]. congruence.
Qed.

Lemma Read_loop_flags (pick : nat -> bool) (q : list (list byte)) :
  forall (i : nat) (s : Stream.t) (lb room nread : nat) (out : list byte)
         (r : Stream.read_result) (s' : Stream.t),
    Stream.Read_loop pick i s lb room nread out q = Ret (r, s') ->
    Stream.closed s' = Stream.closed s /\
    is_closed (Stream.data_in s') = is_closed (Stream.data_in s).
Proof.
  induction q as [|data q IH]; intros i s lb room nread out r s';
    cbn [Stream.Read_loop]; destruct (0 <? room)%nat;
    try (intros [= _ <-]; split; reflexivity).
  - destruct (select2 _ _ _); [| |discriminate]; intros [= _ <-]; split; reflexivity.
  - destruct (select2 _ _ _); [|intros [= _ <-]; split; reflexivity|discriminate].
    destruct (_ <? _)%nat; [intros [= _ <-]; split; reflexivity|].
    intros H. apply IH in H as [-> ->]. split; reflexivity.
Qed.

Lemma Read_ok (pick : nat -> bool) (lenb : nat) (s s' : Stream.t)
    (r : Stream.read_result) :
  stream_ok s -> Stream.Read pick lenb s = Ret (r, s') -> stream_ok s'.
Proof.
  intros Hok. unfold Stream.Read. destruct (Stream.closed s) eqn:Hc.
  - intros [= _ <-]. exact Hok.
  - assert (Hflags : Stream.closed s' = Stream.closed s /\
                     is_closed (Stream.data_in s') = is_closed (Stream.data_in s) ->
                     stream_ok s').
    { intros [H1 H2] _. rewrite H2. apply Hok. exact Hc. }
    destruct (0 <? length (Stream.buf s))%nat.
    + destruct (Buffer_Read lenb (Stream.buf s)) as [[got [err|]] bf].
      * intros [= _ <-]. apply Hflags. split; reflexivity.
      * destruct (lenb <=? length got)%nat.
        -- intros [= _ <-]. apply Hflags. split; reflexivity.
        -- intros H. apply Read_loop_flags in H. apply Hflags. exact H.
    + intros H. apply Read_loop_flags in H. apply Hflags. exact H.
Qed.

Lemma wf_NewMultiplex (con : list byte) (initiator : bool) :
  wf (NewMultiplex con initiator).
Proof.
  split; [constructor|]. intros ch p Hp. cbn in Hp.
  rewrite lookup_empty in Hp. discriminate Hp.
Qed.

(** The dispatch of a frame keeps to those states. *)
Lemma dispatch_wf (rdy pick : bool) (ch tag : Z) (b : list byte) (w w' : World) (u : unit) :
  wf w -> dispatch rdy pick ch tag b w = Ret (u, w') -> wf w'.
Proof.
  intros [Hok Hptr]. unfold dispatch. intros H.
  apply bind_inv in H as (m & w1 & Hm & H). injection Hm as <- <-.
  apply bind_inv in H as ([msch skip] & w2 & Hlook & H).
  assert (Hwf2 : wf w2 /\ (msch < length (heap w2))%nat /\
                 (skip = false -> channels (mp w2) !! ch = Some msch)).
  { destruct (channels (mp w) !! ch) as [p|] eqn:Hch.
    - injection Hlook as <- <- <-. split; [split; assumption|].
      split; [eapply Hptr; exact Hch|auto].
    - run_M. injection Hlook as <- <- <-. cbn. split; [split|split].
      + apply Forall_app. split; [exact Hok|].
        constructor; [apply stream_ok_newStream|constructor].
      + intros ch' p. cbn. rewrite length_app. cbn.
        destruct (decide (ch = ch')) as [<-|Hne].
        * rewrite lookup_insert_eq. intros [= <-]. lia.
        * rewrite lookup_insert_ne by exact Hne. intros Hp.
          apply Hptr in Hp. lia.
      + rewrite length_app. cbn. lia.
      + intros _. apply lookup_insert_eq. }
  clear Hlook Hok Hptr. destruct Hwf2 as ([Hok Hptr] & Hp & _). destruct skip.
  - injection H as _ <-. split; assumption.
  - destruct (bool_decide (tag = Tag.Close)).
    + apply bind_inv in H as (e & w3 & Hc & H).
      apply Stream_Close_at in Hc as (s & s' & sent & _ & Hclose & ->).
      run_M. injection H as _ <-. cbn. split.
      * apply Forall_insert; [exact Hok|]. eapply Close_ok. exact Hclose.
      * intros ch' p. cbn. rewrite length_insert. intros Hl.
        apply lookup_delete_Some in Hl as [_ Hl]. eapply Hptr. exact Hl.
    + apply Stream_receive_at in H as (s & s' & Hs & Hr & ->). cbn. split.
      * apply Forall_insert; [exact Hok|]. eapply receive_ok; [|exact Hr].
        eapply Forall_lookup_1; [exact Hok|exact Hs].
      * intros ch' p. cbn. rewrite length_insert. apply Hptr.
Qed.

Lemma Serve_turn_wf (mem : Z -> bool) (rdy pick : bool) (w w' : World)
    (r : option (option error)) :
  wf w -> Serve_turn mem rdy pick w = Ret (r, w') -> wf w'.
Proof.
  intros Hwf. unfold Serve_turn. intros H.
  apply bind_inv in H as ([[ch tag] err] & w1 & Hh & H).
  rewrite readNextHeader_eq in Hh.
  destruct (DecodeVarint (con (mp w))) as [[[h n] err1] r1].
  assert (Hwf1 : wf w1).
  { destruct err1; injection Hh as _ _ _ <-; apply wf_with_con; exact Hwf. }
  destruct err1 as [e|]; injection Hh as <- <- <- _.
  { destruct (bool_decide (e = EOF)); injection H as _ <-; exact Hwf1. }
  clear Hwf. apply bind_inv in H as ([b err] & w2 & Hn & H).
  rewrite readNext_eq in Hn.
  destruct (DecodeVarint (con (mp w1))) as [[[l n'] err2] r2].
  destruct err2 as [e|].
  { injection Hn as <- <- <-.
    destruct (bool_decide (e = EOF)); injection H as _ <-; apply wf_with_con; exact Hwf1. }
  destruct (maxAlloc <? l); [discriminate|].
  destruct ((l =? 0) || mem l); [|discriminate].
  destruct (ReadFull (Z.to_nat l) r2) as [[got err3] r3].
  destruct err3 as [e|].
  { injection Hn as <- <- <-.
    destruct (bool_decide (e = EOF)); injection H as _ <-; apply wf_with_con; exact Hwf1. }
  destruct (bool_decide _); [|discriminate]. injection Hn as <- <- <-.
  apply bind_inv in H as (u & w3 & Hdis & H). injection H as _ <-.
  eapply dispatch_wf; [|exact Hdis]. apply wf_with_con. exact Hwf1.
Qed.

(** ** The loop does not run out of turns *)

Lemma dispatch_panic (rdy pick : bool) (ch tag : Z) (b : list byte) (w : World)
    (why : string) :
  dispatch rdy pick ch tag b w = Panic why -> why <> "unreachable".
Proof.
  unfold dispatch, Stream_Close, Stream_receive, Stream.Close, Stream.receive,
    chan_close, chan_send.
  run_M. intros H.
  repeat (case_match; simplify_eq; cbn in *; try discriminate); discriminate.
Qed.

Lemma Serve_turn_panic (mem : Z -> bool) (rdy pick : bool) (w : World) (why : string) :
  Serve_turn mem rdy pick w = Panic why -> why <> "unreachable".
Proof.
  unfold Serve_turn, mbind, M_bind, bind.
  rewrite readNextHeader_eq.
  destruct (DecodeVarint (con (mp w))) as [[[h n] [e|]] r].
  { destruct (bool_decide (e = EOF)); discriminate. }
  rewrite readNext_eq.
  destruct (DecodeVarint _) as [[[l n'] [e|]] r2].
  { destruct (bool_decide (e = EOF)); discriminate. }
  destruct (maxAlloc <? l); [intros [= <-]; discriminate|].
  destruct ((l =? 0) || mem l); [|intros [= <-]; discriminate].
  destruct (ReadFull (Z.to_nat l) r2) as [[got [e|]] r3].
  { destruct (bool_decide (e = EOF)); discriminate. }
  destruct (bool_decide _); [|intros [= <-]; discriminate].
  destruct (dispatch _ _ _ _ _ _) as [[u w3]| |] eqn:Hd; [discriminate| |discriminate].
  intros [= <-]. eapply dispatch_panic. exact Hd.
Qed.

(** With more fuel than bytes on the transport the loop never comes to
    the case that stands for having none left. *)
Lemma Serve_loop_not_out_of_fuel (mem : nat -> Z -> bool) (rdy pick : nat -> bool)
    (fuel : nat) :
  forall (i : nat) (w : World),
    (length (con (mp w)) < fuel)%nat ->
    Serve_loop mem fuel rdy pick i w <> Panic "unreachable".
Proof.
  induction fuel as [|fuel IH]; intros i w Hlen; [lia|].
  cbn [Serve_loop]. unfold mbind, M_bind, bind.
  destruct (Serve_turn (mem i) (rdy i) (pick i) w) as [[[r|] w']| |] eqn:Ht.
  - discriminate.
  - apply Serve_turn_consumes in Ht. apply IH. lia.
  - intros [= ->]. eapply Serve_turn_panic; [exact Ht|reflexivity].
  - discriminate.
Qed.

(** ** Literal runs *)

(** A named stream is opened and written to: the serializer's bytes. *)
Example hello_wire :
  match (p ← NewNamedStream true "greet";
         Stream_Write true true p [x68; x69]) (NewMultiplex [] true)
  with
  | Ret (n, err, w) =>
      n = 2%nat /\ err = None /\
      map (fun m => frame_bytes (msg.header m) (msg.data m)) (outchan w)
        = [Some [x08; x05; x67; x72; x65; x65; x74]; Some [x0a; x02; x68; x69]]
  | _ => False
  end.
Proof. vm_compute. repeat split; reflexivity. Qed.

(** The other side serves those bytes: one stream named greet with "hi"
    in its inbox, closed by the shutdown at the end of the transport. *)
Example hello_served :
  match Serve (fun _ _ => true) (fun _ => true) (fun _ => true) (fun _ => false)
          (NewMultiplex [x08; x05; x67; x72; x65; x65; x74; x0a; x02; x68; x69] false)
  with
  | Ret (None, w) =>
      heap w = [Stream.mk 1 "greet" 9 true (Chan [[x68; x69]] 8 true) []] /\
      handlers w = [O]
  | _ => False
  end.
Proof. vm_compute. split; reflexivity. Qed.

(** A whole frame, then a frame cut inside its payload, and a whole frame,
    then a frame cut before its payload. *)
Example Serve_second_frame_cut :
  match Serve (fun _ _ => true) (fun _ => true) (fun _ => true) (fun _ => true)
          (NewMultiplex [x0a; x02; x68; x69; x0a; x03; x61] false)
  with
  | Ret (r, _) => r = Some ErrUnexpectedEOF
  | _ => False
  end /\
  match Serve (fun _ _ => true) (fun _ => true) (fun _ => true) (fun _ => true)
          (NewMultiplex [x0a; x02; x68; x69; x0a; x03] false)
  with
  | Ret (r, _) => r = None
  | _ => False
  end.
Proof. split; vm_compute; reflexivity. Qed.

(** A Close frame for a stream nobody opened, served from the wire: a
    handler is started on a stream that is closed when the turn ends. *)
Example Serve_Close_unknown_stream :
  match Serve (fun _ _ => true) (fun _ => true) (fun _ => true) (fun _ => true)
          (NewMultiplex [x0c; x00] false)
  with
  | Ret (r, w) =>
      r = None /\ handlers w = [O] /\
      heap w = [Stream.mk 1 "" 9 true (Chan [] 8 true) []] /\
      outchan w = [msg.mk 12 []] /\
      channels (mp w) !! 1 = None
  | _ => False
  end.
Proof. vm_compute. repeat split; reflexivity. Qed.

(** The peer opens stream 1, the handler closes it, and a data frame for
    it arrives: the stream is still in [channels], the loop calls
    [receive], and the send on the closed inbox panics. *)
Example Serve_receive_after_local_Close :
  match (Serve_turn (fun _ => true) true true;; Stream_Close true O;; Serve_turn (fun _ => true) true true)
          (NewMultiplex [x08; x00; x0a; x02; x68; x69] false)
  with
  | Panic why => why = "send on closed channel"
  | _ => False
  end.
Proof. vm_compute. reflexivity. Qed.

(** The peer opens stream 1, the handler closes it and then writes to it
    while the serializer waits: the write goes through. *)
Example Write_after_local_Close :
  match (Serve_turn (fun _ => true) true true;; Stream_Close true O;;
         Stream_Write true true O [x68; x69])
          (NewMultiplex [x08; x00] false)
  with
  | Ret (n, err, w) =>
      n = 2%nat /\ err = None /\
      outchan w = [msg.mk 12 []; msg.mk 9 [x68; x69]]
  | _ => False
  end.
Proof. vm_compute. repeat split; reflexivity. Qed.

(** * Further properties of the code *)

(** ** The decoder, case by case *)

Lemma lor_u64_range (a b : Z) :
  0 <= a < 2 ^ 64 -> 0 <= b < 2 ^ 64 -> 0 <= Z.lor a b < 2 ^ 64.
Proof.
  intros Ha Hb. split; [apply Z.lor_nonneg; lia|].
  destruct (Z.eq_dec (Z.lor a b) 0) as [->|Hne]; [lia|].
  assert (Hpos : 0 < Z.lor a b).
  { pose proof (proj2 (Z.lor_nonneg a b) (conj (proj1 Ha) (proj1 Hb))). lia. }
  apply Z.log2_lt_pow2; [exact Hpos|].
  rewrite Z.log2_lor by lia.
  apply Z.max_lub_lt.
  - destruct (Z.eq_dec a 0) as [->|]; [reflexivity|]. apply Z.log2_lt_pow2; lia.
  - destruct (Z.eq_dec b 0) as [->|]; [reflexivity|]. apply Z.log2_lt_pow2; lia.
Qed.

(** Every way out of the decoder's loop, read off the bytes: a last byte
    after continuation bytes, the end of the reader among continuation
    bytes, or continuation bytes up to a shift of 64 or more. *)
Lemma DecodeVarint_loop_inv (r : list byte) :
  forall (shift x : Z) (n m : nat) (v : Z) (err : option error) (r' : list byte),
    0 <= x < 2 ^ 64 ->
    DecodeVarint_loop shift x n r = (v, m, err, r') ->
    match err with
    | None =>
        exists (pre : list byte) (b : byte),
          r = pre ++ b :: r' /\ Forall continues pre /\ ~ continues b /\
          m = (n + length pre + 1)%nat /\
          shift + 7 * Z.of_nat (length pre) < 64 /\
          0 <= v < 2 ^ 64
    | Some e =>
        v = 0 /\ m = O /\
        ((e = EOF /\ r' = [] /\ Forall continues r /\
          shift + 7 * Z.of_nat (length r) < 64) \/
         (e = errorString "Too large of a number!" /\
          exists pre : list byte,
            r = pre ++ r' /\ Forall continues pre /\
            64 <= shift + 7 * Z.of_nat (length pre) /\
            (pre <> [] -> shift + 7 * Z.of_nat (length pre) < 71)))
    end.
Proof.
  induction r as [|val r IH]; intros shift x n m v err r' Hx; cbn [DecodeVarint_loop].
  - destruct (Z.ltb_spec shift 64) as [Hs|Hs]; intros [= <- <- <- <-].
    + split; [reflexivity|]. split; [reflexivity|]. left.
      split; [reflexivity|]. split; [reflexivity|]. split; [constructor|]. cbn. lia.
    + split; [reflexivity|]. split; [reflexivity|]. right.
      split; [reflexivity|]. exists []. split; [reflexivity|].
      split; [constructor|]. cbn. split; [lia|]. intros H. contradiction.
  - destruct (Z.ltb_spec shift 64) as [Hs|Hs].
    + cbv zeta.
      assert (Hx' : 0 <= Z.lor x (u64 (Z.shiftl (Z.land (byte_val val) 127) shift)) < 2 ^ 64).
      { apply lor_u64_range; [exact Hx|]. unfold u64. apply Z.mod_pos_bound. lia. }
      destruct (Z.eqb_spec (Z.land (byte_val val) 128) 0) as [Hlast|Hcont].
      * intros [= <- <- <- <-]. exists [], val.
        split; [reflexivity|]. split; [constructor|].
        split; [unfold continues; lia|]. split; [cbn; lia|]. split; [cbn; lia|exact Hx'].
      * intros H. apply IH in H; [|exact Hx']. destruct err as [e|].
        -- destruct H as (-> & -> & [(-> & -> & Hall & Hsh)|(-> & pre & -> & Hall & Hlo & Hhi)]).
           ++ split; [reflexivity|]. split; [reflexivity|]. left.
              split; [reflexivity|]. split; [reflexivity|].
              split; [constructor; assumption|]. cbn [length]. lia.
           ++ split; [reflexivity|]. split; [reflexivity|]. right.
              split; [reflexivity|]. exists (val :: pre).
              split; [reflexivity|]. split; [constructor; assumption|].
              cbn [length]. split; [lia|]. intros _.
              destruct pre as [|b0 pre]; [cbn in *; lia|].
              specialize (Hhi ltac:(discriminate)). cbn [length] in *. lia.
        -- destruct H as (pre & b & -> & Hall & Hb & -> & Hsh & Hv).
           exists (val :: pre), b. split; [reflexivity|].
           split; [constructor; assumption|]. split; [exact Hb|].
           cbn [length]. split; [lia|]. split; [lia|exact Hv].
    + intros [= <- <- <- <-].
      split; [reflexivity|]. split; [reflexivity|]. right.
      split; [reflexivity|]. exists []. split; [reflexivity|].
      split; [constructor|]. cbn. split; [lia|]. intros H. contradiction.
Qed.

Lemma DecodeVarint_loop_all_continue (r : list byte) :
  forall (shift x : Z) (n : nat),
    Forall continues r -> shift + 7 * Z.of_nat (length r) < 64 ->
    DecodeVarint_loop shift x n r = (0, O, Some EOF, []).
Proof.
  induction r as [|b r IH]; intros shift x n Hall Hlen.
  - cbn [DecodeVarint_loop]. cbn in Hlen.
    destruct (Z.ltb_spec shift 64); [reflexivity|lia].
  - apply Forall_cons in Hall as [Hb Hall]. cbn [length] in Hlen.
    rewrite DecodeVarint_loop_continues by (first [lia|assumption]).
    apply IH; [exact Hall|lia].
Qed.

(** X1: [DecodeVarint] returns its own error, the number being too large,
    exactly when the reader starts with ten bytes that all carry the
    continuation bit; it has then consumed those ten bytes and no more,
    and returns 0 for the value and for the count. *)
Theorem DecodeVarint_too_large_iff (r : list byte) :
  ((DecodeVarint r).1.2 = Some (errorString "Too large of a number!") <->
   (10 <= length r)%nat /\ Forall continues (take 10 r)) /\
  ((DecodeVarint r).1.2 = Some (errorString "Too large of a number!") ->
   DecodeVarint r = (0, O, Some (errorString "Too large of a number!"), drop 10 r)).
Proof.
  assert (Hfwd : (DecodeVarint r).1.2 = Some (errorString "Too large of a number!") ->
                 exists pre, r = pre ++ drop 10 r /\ length pre = 10%nat /\
                             Forall continues pre /\
                             DecodeVarint r =
                               (0, O, Some (errorString "Too large of a number!"), drop 10 r)).
  { destruct (DecodeVarint r) as [[[v m] err] r'] eqn:Hd. cbn. intros ->.
    unfold DecodeVarint in Hd.
    apply DecodeVarint_loop_inv in Hd; [|lia].
    destruct Hd as (-> & -> & [(He & _)|(_ & pre & -> & Hall & Hlo & Hhi)]); [discriminate|].
    assert (Hlen : length pre = 10%nat).
    { destruct pre as [|b0 pre]; [cbn in Hlo; lia|].
      specialize (Hhi ltac:(discriminate)). lia. }
    exists pre. rewrite <- Hlen, drop_app_length. auto. }
  split; [split|].
  - intros H. destruct (Hfwd H) as (pre & Hr & Hlen & Hall & _).
    rewrite Hr. rewrite length_app, <- Hlen, take_app_length. split; [lia|exact Hall].
  - intros [Hlen Hall].
    rewrite <- (take_drop 10 r).
    rewrite DecodeVarint_overflow; [reflexivity| |exact Hall].
    rewrite length_take. lia.
  - intros H. destruct (Hfwd H) as (_ & _ & _ & _ & Hd). exact Hd.
Qed.

Lemma DecodeVarint_too_large_iff_witness :
  DecodeVarint [x80; x81; x82; x83; x84; x85; x86; x87; x88; x89; x01; x02]
    = (0, O, Some (errorString "Too large of a number!"), [x01; x02]).
Proof.
  apply (proj2 (DecodeVarint_too_large_iff
                  [x80; x81; x82; x83; x84; x85; x86; x87; x88; x89; x01; x02])).
  vm_compute. reflexivity.
Defined.

(** X2: [DecodeVarint] returns [io.EOF] exactly when the reader ends
    before a byte without the continuation bit has come and before ten
    bytes have: the reader holds fewer than ten bytes and all of them
    carry the bit (the empty reader among them). All of the reader is
    then consumed, and the value and the count returned are 0. *)
Theorem DecodeVarint_EOF_iff (r : list byte) :
  ((DecodeVarint r).1.2 = Some EOF <->
   (length r < 10)%nat /\ Forall continues r) /\
  ((DecodeVarint r).1.2 = Some EOF -> DecodeVarint r = (0, O, Some EOF, [])).
Proof.
  assert (Hbwd : (length r < 10)%nat /\ Forall continues r ->
                 DecodeVarint r = (0, O, Some EOF, [])).
  { intros [Hlen Hall]. unfold DecodeVarint.
    apply DecodeVarint_loop_all_continue; [exact Hall|lia]. }
  assert (Hfwd : (DecodeVarint r).1.2 = Some EOF ->
                 (length r < 10)%nat /\ Forall continues r).
  { destruct (DecodeVarint r) as [[[v m] err] r'] eqn:Hd. cbn. intros ->.
    unfold DecodeVarint in Hd.
    apply DecodeVarint_loop_inv in Hd; [|lia].
    destruct Hd as (_ & _ & [(_ & _ & Hall & Hlen)|(He & _)]); [|discriminate].
    split; [lia|exact Hall]. }
  split; [split|].
  - exact Hfwd.
  - intros H. rewrite (Hbwd H). reflexivity.
  - intros H. apply Hbwd, Hfwd, H.
Qed.

Lemma DecodeVarint_EOF_iff_witness :
  DecodeVarint [x80; xff; x81] = (0, O, Some EOF, []).
Proof.
  apply (proj2 (DecodeVarint_EOF_iff [x80; xff; x81])). vm_compute. reflexivity.
Defined.

(** X3: when [DecodeVarint] returns without error, the count it returns
    is the number of bytes it consumed, between 1 and 10; the bytes
    consumed are continuation bytes followed by one byte without the
    bit; the reader is left right after that byte; and the value is a
    uint64. *)
Theorem DecodeVarint_success (r r' : list byte) (x : Z) (n : nat) :
  DecodeVarint r = (x, n, None, r') ->
  (1 <= n <= 10)%nat /\
  0 <= x < 2 ^ 64 /\
  exists (pre : list byte) (b : byte),
    r = pre ++ b :: r' /\ length pre = (n - 1)%nat /\
    Forall continues pre /\ ~ continues b.
Proof.
  unfold DecodeVarint. intros Hd.
  apply DecodeVarint_loop_inv in Hd; [|lia].
  destruct Hd as (pre & b & -> & Hall & Hb & -> & Hlen & Hx).
  split; [lia|]. split; [exact Hx|].
  exists pre, b. split; [reflexivity|]. split; [lia|]. split; assumption.
Qed.

Lemma DecodeVarint_success_witness :
  (1 <= 2 <= 10)%nat /\
  0 <= 300 < 2 ^ 64 /\
  exists (pre : list byte) (b : byte),
    [xac; x02; x07] = pre ++ b :: [x07] /\ length pre = (2 - 1)%nat /\
    Forall continues pre /\ ~ continues b.
Proof.
  apply (DecodeVarint_success [xac; x02; x07] [x07] 300 2). vm_compute. reflexivity.
Defined.

(** ** The encoder: length and self-delimitation *)

Lemma shiftr7_bound_iff (x e : Z) :
  0 <= x -> 0 <= e -> (Z.shiftr x 7 < 2 ^ e <-> x < 128 * 2 ^ e).
Proof.
  intros Hx He. rewrite Z.shiftr_div_pow2 by lia. change (2 ^ 7) with 128.
  assert (Hp : 0 < 2 ^ e) by (apply Z.pow_pos_nonneg; lia).
  split; intros H.
  - pose proof (Z.div_mod x 128 ltac:(lia)). pose proof (Z.mod_pos_bound x 128 ltac:(lia)). lia.
  - apply Z.div_lt_upper_bound; lia.
Qed.

Lemma varint_groups_length_le (k : nat) :
  forall (j : nat) (x : Z),
    (1 <= j <= k)%nat -> 0 <= x < 2 ^ (7 * Z.of_nat k) ->
    ((length (varint_groups k x) <= j)%nat <-> x < 2 ^ (7 * Z.of_nat j)).
Proof.
  induction k as [|k IH]; intros j x Hj Hx; [lia|].
  cbn [varint_groups]. destruct (127 <? x) eqn:Hbig.
  - apply Z.ltb_lt in Hbig.
    pose proof (groups_left k x Hbig (proj2 Hx)) as Hk'.
    rewrite pow7_step in Hx. cbn [length].
    pose proof (varint_groups_length k (Z.shiftr x 7) Hk' (shiftr7_bound _ _ Hx)) as Hlen.
    destruct j as [|[|j]]; [lia| |].
    + change (2 ^ (7 * Z.of_nat 1)) with 128. split; intros Hgoal; lia.
    + rewrite (pow7_step (S j)).
      rewrite <- shiftr7_bound_iff by lia.
      rewrite <- (IH (S j) (Z.shiftr x 7)); [lia|lia|].
      apply shiftr7_bound. exact Hx.
  - apply Z.ltb_ge in Hbig. cbn [length].
    assert (128 <= 2 ^ (7 * Z.of_nat j)).
    { change 128 with (2 ^ 7). apply Z.pow_le_mono_r; lia. }
    split; intros Hgoal; lia.
Qed.

(** X4: the encoding of a uint64 [x] is as short as its value allows: for
    [k] from 1 to 10 it has at most [k] bytes exactly when [x < 2^(7k)].
    So values up to 127 take one byte, and only values from 2^63 on take
    ten. *)
Theorem EncodeVarint_length (x : Z) (bs : list byte) (k : nat) :
  0 <= x < 2 ^ 64 ->
  EncodeVarint x = Some bs ->
  (1 <= k <= 10)%nat ->
  ((length bs <= k)%nat <-> x < 2 ^ (7 * Z.of_nat k)).
Proof.
  intros Hx Henc Hk.
  assert (Hx70 : 0 <= x < 2 ^ (7 * Z.of_nat 10)).
  { change (2 ^ (7 * Z.of_nat 10)) with (2 ^ 64 * 64). lia. }
  assert (Hbs : bs = varint_groups 10 x).
  { pose proof (EncodeVarint_groups x Hx70) as Hg. congruence. }
  subst bs. apply varint_groups_length_le; [lia|exact Hx70].
Qed.

Lemma EncodeVarint_length_witness :
  (length [x80; x01] <= 2)%nat <-> 128 < 2 ^ (7 * Z.of_nat 2).
Proof.
  apply (EncodeVarint_length 128 [x80; x01] 2); [lia|reflexivity|lia].
Defined.

(** X5: encodings delimit themselves. If the encoding of [x] followed by
    some bytes equals the encoding of [y] followed by some bytes, then
    [x = y] and the bytes that follow are the same: no encoding is a
    proper prefix of another, and different values have different
    encodings. *)
Theorem EncodeVarint_prefix_free (x y : Z) (bx by_ r1 r2 : list byte) :
  0 <= x < 2 ^ 64 -> 0 <= y < 2 ^ 64 ->
  EncodeVarint x = Some bx -> EncodeVarint y = Some by_ ->
  bx ++ r1 = by_ ++ r2 ->
  x = y /\ bx = by_ /\ r1 = r2.
Proof.
  intros Hx Hy Ex Ey Heq.
  pose proof (DecodeVarint_encoded x bx r1 Hx Ex) as Dx.
  pose proof (DecodeVarint_encoded y by_ r2 Hy Ey) as Dy.
  rewrite Heq, Dy in Dx. injection Dx as Hxy Hlen Hr.
  subst y r2. split; [reflexivity|]. split; [congruence|reflexivity].
Qed.

Lemma EncodeVarint_prefix_free_witness :
  300 = 300 /\ [xac; x02] = [xac; x02] /\ [x07] = [x07].
Proof.
  apply (EncodeVarint_prefix_free 300 300 [xac; x02] [xac; x02] [x07] [x07]);
    first [lia|reflexivity].
Defined.

(** ** Reading from an open stream *)

Lemma Read_loop_conserves (pick : nat -> bool) (q : list (list byte)) :
  forall (i : nat) (s : Stream.t) (lb room nread : nat) (out : list byte)
         (r : Stream.read_result) (s' : Stream.t),
    Stream.buf s = [] ->
    Stream.Read_loop pick i s lb room nread out q = Ret (r, s') ->
    Stream.copied r ++ unread s' = out ++ concat q.
Proof.
  induction q as [|data q IH]; intros i s lb room nread out r s' Hbuf;
    cbn [Stream.Read_loop]; destruct (0 <? room)%nat.
  - destruct (select2 _ _ _); [| |discriminate];
      intros [= <- <-]; unfold unread; cbn; rewrite Hbuf; reflexivity.
  - intros [= <- <-]; unfold unread; cbn; rewrite Hbuf; reflexivity.
  - destruct (select2 _ _ _); [| |discriminate].
    + destruct (Nat.ltb_spec (Nat.min room (length data)) (length data)) as [Hcut|Hall].
      * intros [= <- <-]. unfold unread, Buffer_Write. cbn. rewrite Hbuf. cbn.
        rewrite <- !app_assoc. f_equal. rewrite app_assoc, take_drop. reflexivity.
      * replace (Nat.min room (length data)) with (length data) by lia.
        rewrite take_ge by lia.
        intros H. apply IH in H; [|exact Hbuf]. rewrite H.
        cbn. rewrite <- app_assoc. reflexivity.
    + intros [= <- <-]; unfold unread; cbn; rewrite Hbuf; reflexivity.
  - intros [= <- <-]; unfold unread; cbn; rewrite Hbuf; reflexivity.
Qed.

(** X6: [Read] neither loses nor reorders bytes. Whenever it returns,
    the bytes it copied into the caller's slice, followed by what the
    stream still holds (residue, then the inbox payloads in order), are
    what the stream held before the call. *)
Theorem Read_conserves_bytes (pick : nat -> bool) (lenb : nat) (s s' : Stream.t)
    (r : Stream.read_result) :
  Stream.Read pick lenb s = Ret (r, s') ->
  Stream.copied r ++ unread s' = unread s.
Proof.
  unfold Stream.Read. destruct (Stream.closed s).
  - intros [= <- <-]. reflexivity.
  - destruct (Nat.ltb_spec 0 (length (Stream.buf s))) as [Hlen|Hlen].
    + destruct (Buffer_Read lenb (Stream.buf s)) as [[got err] bf] eqn:Hb.
      assert (Hgot : got = take lenb (Stream.buf s) /\ err = None /\
                     bf = drop lenb (Stream.buf s)).
      { unfold Buffer_Read in Hb. destruct (Stream.buf s); [cbn in Hlen; lia|].
        injection Hb as <- <- <-. auto. }
      destruct Hgot as (-> & -> & ->).
      destruct (Nat.leb_spec lenb (length (take lenb (Stream.buf s)))) as [Hfull|Hpart].
      * intros [= <- <-]. unfold unread. cbn.
        rewrite app_assoc, take_drop. reflexivity.
      * rewrite length_take in Hpart.
        rewrite !take_ge, !drop_ge by lia.
        intros H. apply Read_loop_conserves in H; [|reflexivity].
        rewrite H. reflexivity.
    + intros H. apply Read_loop_conserves in H.
      * rewrite H. unfold unread.
        destruct (Stream.buf s); [reflexivity|cbn in Hlen; lia].
      * destruct (Stream.buf s); [reflexivity|cbn in Hlen; lia].
Qed.

Lemma Read_conserves_bytes_witness :
  [x61; x62] ++ unread (Stream.mk 1 "" 9 false (Chan [[x64]] 8 false) [x63])
  = unread (Stream.mk 1 "" 9 false (Chan [[x62; x63]; [x64]] 8 false) [x61]).
Proof.
  apply (Read_conserves_bytes (fun _ => true) 2
           (Stream.mk 1 "" 9 false (Chan [[x62; x63]; [x64]] 8 false) [x61])
           (Stream.mk 1 "" 9 false (Chan [[x64]] 8 false) [x63])
           (Stream.mkRead 2 None [x61; x62])).
  vm_compute. reflexivity.
Defined.

Lemma can_recv_cons {A : Type} (c : chan A) (d : A) (q : list A) :
  can_recv (set_queue c (d :: q)) = true.
Proof. unfold can_recv. cbn. apply orb_true_r. Qed.

Lemma can_recv_nil {A : Type} (c : chan A) :
  can_recv (set_queue c []) = is_closed c.
Proof. unfold can_recv. cbn. apply orb_false_r. Qed.

Lemma Read_loop_enough (pick : nat -> bool) (q : list (list byte)) :
  forall (i : nat) (s : Stream.t) (lb room nread : nat) (out : list byte),
    Stream.closed s = false ->
    (room <= length (concat q))%nat ->
    exists s' : Stream.t,
      Stream.Read_loop pick i s lb room nread out q =
        Ret (Stream.mkRead lb None (out ++ take room (concat q)), s').
Proof.
  induction q as [|data q IH]; intros i s lb room nread out Hc Hroom;
    cbn [Stream.Read_loop]; destruct (Nat.ltb_spec 0 room) as [Hpos|Hzero].
  - cbn in Hroom. lia.
  - eexists. replace room with O by lia. rewrite take_0, app_nil_r. reflexivity.
  - cbn [Stream.data_in Stream.with_data_in Stream.closed].
    rewrite can_recv_cons, Hc. cbn [select2].
    destruct (Nat.ltb_spec (Nat.min room (length data)) (length data)) as [Hcut|Hall].
    + eexists. replace (Nat.min room (length data)) with room by lia.
      cbn [concat]. rewrite take_app_le by lia. reflexivity.
    + replace (Nat.min room (length data)) with (length data) by lia.
      cbn [concat] in *. rewrite length_app in Hroom.
      destruct (IH (S i) (Stream.with_data_in s (set_queue (Stream.data_in s) (data :: q)))
                  lb (room - length data)%nat (nread + length data)%nat
                  (out ++ take (length data) data)) as (s' & Hs'); [exact Hc|lia|].
      exists s'. rewrite Hs'. rewrite take_ge by lia.
      rewrite (take_app_ge data) by lia. rewrite <- app_assoc. reflexivity.
  - eexists. replace room with O by lia. rewrite take_0, app_nil_r. reflexivity.
Qed.

Lemma Read_fills (pick : nat -> bool) (lenb : nat) (s : Stream.t) :
  Stream.closed s = false ->
  (lenb <= length (unread s))%nat ->
  exists s' : Stream.t,
    Stream.Read pick lenb s =
      Ret (Stream.mkRead lenb None (take lenb (unread s)), s').
Proof.
  intros Hc Hlen. unfold Stream.Read, unread in *. rewrite Hc.
  destruct (Nat.ltb_spec 0 (length (Stream.buf s))) as [Hbuf|Hbuf].
  - assert (Hb : Buffer_Read lenb (Stream.buf s) =
                 (take lenb (Stream.buf s), None, drop lenb (Stream.buf s))).
    { unfold Buffer_Read. destruct (Stream.buf s); [cbn in Hbuf; lia|reflexivity]. }
    rewrite Hb. rewrite length_take.
    destruct (Nat.leb_spec lenb (Nat.min lenb (length (Stream.buf s)))) as [Hfull|Hpart].
    + eexists. rewrite take_app_le by lia.
      replace (Nat.min lenb (length (Stream.buf s))) with lenb by lia. reflexivity.
    + rewrite length_app in Hlen.
      destruct (Read_loop_enough pick (queue (Stream.data_in s)) 0
                  (Stream.with_buf s (drop lenb (Stream.buf s))) lenb
                  (lenb - Nat.min lenb (length (Stream.buf s)))%nat
                  (Nat.min lenb (length (Stream.buf s)))
                  (take lenb (Stream.buf s))) as (s' & Hs'); [exact Hc|lia|].
      exists s'. cbn [Stream.data_in Stream.with_buf]. rewrite Hs'.
      rewrite take_app_ge by lia. rewrite take_ge by lia.
      replace (Nat.min lenb (length (Stream.buf s))) with (length (Stream.buf s)) by lia.
      reflexivity.
  - assert (Hnil : Stream.buf s = []) by (destruct (Stream.buf s); [reflexivity|cbn in Hbuf; lia]).
    rewrite Hnil in *. cbn [app] in *.
    destruct (Read_loop_enough pick (queue (Stream.data_in s)) 0 s lenb lenb 0 [])
      as (s' & Hs'); [exact Hc|exact Hlen|].
    exists s'. rewrite Hs'. reflexivity.
Qed.

(** X7: on a stream that is not closed and holds at least [lenb] unread
    bytes, [Read] into a slice of length [lenb] returns [(lenb, nil)]
    and has copied the first [lenb] of those bytes: the residue before
    the inbox, the inbox payloads in the order they were delivered, a
    payload split where the slice ends. *)
Theorem Read_enough (pick : nat -> bool) (lenb : nat) (s : Stream.t) :
  Stream.closed s = false ->
  (lenb <= length (unread s))%nat ->
  exists s' : Stream.t,
    Stream.Read pick lenb s =
      Ret (Stream.mkRead lenb None (take lenb (unread s)), s').
Proof. apply Read_fills. Qed.

Lemma Read_enough_witness :
  exists s' : Stream.t,
    Stream.Read (fun _ => false) 3
      (Stream.mk 1 "" 9 false (Chan [[x62; x63]; [x64]] 8 false) [x61])
    = Ret (Stream.mkRead 3 None
             (take 3 (unread (Stream.mk 1 "" 9 false (Chan [[x62; x63]; [x64]] 8 false) [x61]))),
           s').
Proof.
  apply (Read_enough (fun _ => false) 3
           (Stream.mk 1 "" 9 false (Chan [[x62; x63]; [x64]] 8 false) [x61])).
  - reflexivity.
  - vm_compute. lia.
Defined.

Lemma Read_loop_short (pick : nat -> bool) (q : list (list byte)) :
  forall (i : nat) (s : Stream.t) (lb room nread : nat) (out : list byte),
    Stream.closed s = false ->
    is_closed (Stream.data_in s) = false ->
    (length (concat q) < room)%nat ->
    Stream.Read_loop pick i s lb room nread out q = Block.
Proof.
  induction q as [|data q IH]; intros i s lb room nread out Hc Hi Hroom;
    cbn [Stream.Read_loop]; destruct (Nat.ltb_spec 0 room) as [Hpos|Hzero]; try lia.
  - cbn [Stream.data_in Stream.with_data_in Stream.closed].
    rewrite can_recv_nil, Hc, Hi. reflexivity.
  - cbn [Stream.data_in Stream.with_data_in Stream.closed].
    rewrite can_recv_cons, Hc. cbn [select2].
    cbn in Hroom. rewrite length_app in Hroom.
    destruct (Nat.ltb_spec (Nat.min room (length data)) (length data)) as [Hcut|Hall]; [lia|].
    replace (Nat.min room (length data)) with (length data) by lia.
    apply IH; [exact Hc|exact Hi|lia].
Qed.

(** X8: [Read] waits until it can fill the whole slice. On a stream that
    is not closed, whose inbox is not closed and which holds fewer than
    [lenb] unread bytes, a [Read] into a slice of length [lenb] does not
    return, however many bytes it has copied by then: it waits for the
    next payload or for the close. *)
Theorem Read_short_waits (pick : nat -> bool) (lenb : nat) (s : Stream.t) :
  Stream.closed s = false ->
  is_closed (Stream.data_in s) = false ->
  (length (unread s) < lenb)%nat ->
  Stream.Read pick lenb s = Block.
Proof.
  intros Hc Hi Hlen. unfold Stream.Read, unread in *. rewrite Hc.
  rewrite length_app in Hlen.
  destruct (Nat.ltb_spec 0 (length (Stream.buf s))) as [Hbuf|Hbuf].
  - assert (Hb : Buffer_Read lenb (Stream.buf s) =
                 (take lenb (Stream.buf s), None, drop lenb (Stream.buf s))).
    { unfold Buffer_Read. destruct (Stream.buf s); [cbn in Hbuf; lia|reflexivity]. }
    rewrite Hb. rewrite length_take.
    destruct (Nat.leb_spec lenb (Nat.min lenb (length (Stream.buf s)))) as [Hfull|Hpart]; [lia|].
    apply Read_loop_short; [exact Hc|exact Hi|cbn; lia].
  - apply Read_loop_short; [exact Hc|exact Hi|lia].
Qed.

Lemma Read_short_waits_witness :
  Stream.Read (fun _ => true) 4
    (Stream.mk 1 "" 9 false (Chan [[x62; x63]] 8 false) [x61]) = Block.
Proof.
  apply (Read_short_waits (fun _ => true) 4
           (Stream.mk 1 "" 9 false (Chan [[x62; x63]] 8 false) [x61]));
    [reflexivity|reflexivity|vm_compute; lia].
Defined.

(** ** Delivery into the inbox *)

Lemma receive_all_room (pick : nat -> bool) (bs : list (list byte)) :
  forall (k : nat) (s : Stream.t),
    Stream.closed s = false -> is_closed (Stream.data_in s) = false ->
    (length (queue (Stream.data_in s)) + length bs <= capacity (Stream.data_in s))%nat ->
    receive_all pick k bs s =
      Ret (Stream.with_data_in s
             (set_queue (Stream.data_in s) (queue (Stream.data_in s) ++ bs))).
Proof.
  induction bs as [|b bs IH]; intros k s Hc Hi Hroom.
  - cbn. rewrite app_nil_r. destruct s as [? ? ? ? [? ? ?] ?]. reflexivity.
  - cbn [receive_all length] in *.
    rewrite receive_open_room by (first [assumption|lia]).
    rewrite IH; cbn; try assumption.
    + rewrite <- app_assoc. reflexivity.
    + rewrite length_app. cbn. lia.
Qed.

(** X9: payloads reach the reader in the order [receive] got them. On a
    stream that is not closed, with room in the inbox for the payloads
    [bs], the calls of [receive] for them all return, and a [Read] after
    them of at most as many bytes as the stream then holds returns the
    first bytes of: what the stream held before, then the payloads one
    after the other. *)
Theorem receive_then_Read (pick pick' : nat -> bool) (k lenb : nat)
    (bs : list (list byte)) (s : Stream.t) :
  Stream.closed s = false ->
  is_closed (Stream.data_in s) = false ->
  (length (queue (Stream.data_in s)) + length bs <= capacity (Stream.data_in s))%nat ->
  (lenb <= length (unread s ++ concat bs))%nat ->
  exists s1 s2 : Stream.t,
    receive_all pick k bs s = Ret s1 /\
    Stream.Read pick' lenb s1 =
      Ret (Stream.mkRead lenb None (take lenb (unread s ++ concat bs)), s2).
Proof.
  intros Hc Hi Hroom Hlen.
  set (s1 := Stream.with_data_in s
               (set_queue (Stream.data_in s) (queue (Stream.data_in s) ++ bs))).
  assert (Hun : unread s1 = unread s ++ concat bs).
  { unfold unread, s1. cbn. rewrite concat_app, app_assoc. reflexivity. }
  destruct (Read_fills pick' lenb s1) as (s2 & Hread).
  - exact Hc.
  - rewrite Hun. exact Hlen.
  - exists s1, s2. split; [apply receive_all_room; assumption|].
    rewrite Hread, Hun. reflexivity.
Qed.

Lemma receive_then_Read_witness :
  exists s1 s2 : Stream.t,
    receive_all (fun _ => true) 0 [[x41]; [x42; x43]] (Stream.newStream 1 "" false) = Ret s1 /\
    Stream.Read (fun _ => true) 2 s1 =
      Ret (Stream.mkRead 2 None
             (take 2 (unread (Stream.newStream 1 "" false) ++ concat [[x41]; [x42; x43]])), s2).
Proof.
  apply (receive_then_Read (fun _ => true) (fun _ => true) 0 2 [[x41]; [x42; x43]]
           (Stream.newStream 1 "" false)).
  - reflexivity.
  - reflexivity.
  - vm_compute. lia.
  - vm_compute. lia.
Defined.

(** X10: the inbox of a stream holds eight payloads. [receive] on a new
    stream returns for each of up to eight payloads, whatever their
    sizes, and queues them in order; once eight are queued and the stream
    is not closed, the next [receive] does not return until a reader
    takes a payload or the stream is closed. *)
Theorem inbox_holds_eight (pick : nat -> bool) (k : nat) (id : Z) (name : string)
    (initiator : bool) (bs : list (list byte)) :
  (length bs <= 8)%nat ->
  exists s : Stream.t,
    receive_all pick k bs (Stream.newStream id name initiator) = Ret s /\
    queue (Stream.data_in s) = bs /\
    Stream.closed s = false /\
    (length bs = 8%nat ->
     forall (p : bool) (b : list byte), Stream.receive p b s = Block).
Proof.
  intros Hlen. eexists. split.
  - apply receive_all_room; [reflexivity|reflexivity|cbn; lia].
  - cbn. split; [reflexivity|]. split; [reflexivity|].
    intros H8 p b. unfold Stream.receive, can_send. cbn. rewrite H8. reflexivity.
Qed.

Lemma inbox_holds_eight_witness :
  exists s : Stream.t,
    receive_all (fun _ => true) 0 [[x41]; []; [x42]; []; []; [x43]; []; [x44]]
      (Stream.newStream 5 "" true) = Ret s /\
    queue (Stream.data_in s) = [[x41]; []; [x42]; []; []; [x43]; []; [x44]] /\
    Stream.closed s = false /\
    (length [[x41]; []; [x42]; []; []; [x43]; []; [x44]] = 8%nat ->
     forall (p : bool) (b : list byte), Stream.receive p b s = Block).
Proof.
  apply (inbox_holds_eight (fun _ => true) 0 5 "" true
           [[x41]; []; [x42]; []; []; [x43]; []; [x44]]).
  vm_compute. lia.
Defined.

(** ** From a sender to the peer's dispatch *)

Lemma EncodeVarint_uint64 (x : Z) :
  0 <= x < 2 ^ 64 -> exists bs : list byte, EncodeVarint x = Some bs.
Proof.
  intros Hx. exists (varint_groups 10 x). apply EncodeVarint_groups.
  change (2 ^ (7 * Z.of_nat 10)) with (2 ^ 64 * 64). lia.
Qed.

Lemma header_range (id t : Z) :
  0 <= t < 8 -> 0 <= Z.lor (u64 (Z.shiftl id 3)) t < 2 ^ 64.
Proof. intros Ht. apply lor_u64_range; [apply u64_range|lia]. Qed.

(** What the serializer writes for a message whose header was built from
    a stream id and a tag is read by a turn of the peer's loop as that
    id, that tag and that payload, if the peer's runtime gives the slice
    for the payload. *)
Lemma frame_round_trip (rdy pick : bool) (id t : Z) (b rest : list byte) :
  0 <= id < 2 ^ 61 -> 0 <= t < 8 -> Z.of_nat (length b) < 2 ^ 63 ->
  exists bytes : list byte,
    frame_bytes (Z.lor (u64 (Z.shiftl id 3)) t) b = Some bytes /\
    forall (mem : Z -> bool) (w : World),
      con (mp w) = bytes ++ rest ->
      Z.of_nat (length b) <= maxAlloc ->
      mem (Z.of_nat (length b)) = true ->
      Serve_turn mem rdy pick w =
        (dispatch rdy pick id t b ≫= fun _ => mret None)
          (with_mp w (with_con (mp w) rest)).
Proof.
  intros Hid Ht Hlen.
  pose proof (header_range id t Ht) as Hh.
  destruct (EncodeVarint_uint64 _ Hh) as (hb & Ehb).
  destruct (EncodeVarint_uint64 (Z.of_nat (length b)) ltac:(lia)) as (lb & Elb).
  exists (hb ++ lb ++ b). split.
  - unfold frame_bytes. rewrite Ehb. cbn. rewrite u64_small by lia. rewrite Elb. reflexivity.
  - intros mem w Hcon Hmax Hgives.
    assert (Hg : (Z.of_nat (length b) =? 0) || mem (Z.of_nat (length b)) = true)
      by (rewrite Hgives; apply orb_true_r).
    rewrite (Serve_turn_frame mem rdy pick w _ b hb lb rest Hh Hmax Hg Ehb Elb).
    + rewrite id_of_header, tag_of_header by assumption. reflexivity.
    + rewrite Hcon, <- !app_assoc. reflexivity.
Qed.

(** X11: a [Write] that the serializer accepts arrives whole at the peer.
    For a stream that is not closed, with an id below 2^61 and the header
    [newStream] gave it, the one message of the [Write] is written by the
    serializer as bytes which a turn of the peer's [Serve] loop reads as
    a frame for that id, with tag 2 if the stream was made as initiator
    and 1 if not, and with the very slice written as payload, whatever
    its length (below 2^63): the stream does not split or pad it. The
    peer's turn is one where its runtime gives the slice for the payload:
    the length is at most [maxAlloc] and the memory is there. *)
Theorem Write_reaches_dispatch (pick rdy' pick' : bool) (id : Z) (name : string)
    (initiator : bool) (b rest : list byte) (s : Stream.t) :
  0 <= id < 2 ^ 61 ->
  Z.of_nat (length b) < 2 ^ 63 ->
  Stream.closed s = false ->
  Stream.header s = Stream.header (Stream.newStream id name initiator) ->
  exists (m : msg.t) (bytes : list byte),
    Stream.Write true pick b s = Ret (length b, None, [m]) /\
    frame_bytes (msg.header m) (msg.data m) = Some bytes /\
    forall (mem : Z -> bool) (w : World),
      con (mp w) = bytes ++ rest ->
      Z.of_nat (length b) <= maxAlloc ->
      mem (Z.of_nat (length b)) = true ->
      Serve_turn mem rdy' pick' w =
        (dispatch rdy' pick' id (if initiator then Tag.Initiator else Tag.Receiver) b
           ≫= fun _ => mret None)
          (with_mp w (with_con (mp w) rest)).
Proof.
  intros Hid Hlen Hc Hh.
  set (t := if initiator then Tag.Initiator else Tag.Receiver).
  assert (Ht : 0 <= t < 8) by (unfold t; destruct initiator; cbv; split; congruence).
  destruct (frame_round_trip rdy' pick' id t b rest Hid Ht Hlen) as (bytes & Hf & Hturn).
  exists (msg.mk (Stream.header s) b), bytes.
  split; [apply Write_open_accepted; exact Hc|].
  assert (Hhead : Stream.header s = Z.lor (u64 (Z.shiftl id 3)) t).
  { rewrite Hh. unfold t. destruct initiator; reflexivity. }
  cbn [msg.header msg.data]. rewrite Hhead. split; [exact Hf|exact Hturn].
Qed.

Lemma Write_reaches_dispatch_witness :
  exists (m : msg.t) (bytes : list byte),
    Stream.Write true false [x68; x69] (Stream.newStream 15 "a" true)
      = Ret (length [x68; x69], None, [m]) /\
    frame_bytes (msg.header m) (msg.data m) = Some bytes /\
    forall (mem : Z -> bool) (w : World),
      con (mp w) = bytes ++ [x00] ->
      Z.of_nat (length [x68; x69]) <= maxAlloc ->
      mem (Z.of_nat (length [x68; x69])) = true ->
      Serve_turn mem true true w =
        (dispatch true true 15 (if true then Tag.Initiator else Tag.Receiver) [x68; x69]
           ≫= fun _ => mret None)
          (with_mp w (with_con (mp w) [x00])).
Proof.
  apply (Write_reaches_dispatch false true true 15 "a" true [x68; x69] [x00]
           (Stream.newStream 15 "a" true)).
  - lia.
  - vm_compute. reflexivity.
  - reflexivity.
  - reflexivity.
Defined.

Lemma dispatch_NewStream_unknown (rdy pick : bool) (ch : Z) (b : list byte) (w : World) :
  channels (mp w) !! ch = None ->
  dispatch rdy pick ch Tag.NewStream b w =
    Ret (tt,
         mkWorld (heap w ++ [Stream.newStream ch (String.string_of_list_byte b) false])
           (with_channels (mp w) (<[ch := length (heap w)]> (channels (mp w))))
           (outchan w) (handlers w ++ [length (heap w)])).
Proof.
  intros Hnew. unfold dispatch. run_M. rewrite Hnew. cbn.
  rewrite (bool_decide_eq_true_2 (Tag.NewStream = Tag.NewStream)) by reflexivity.
  reflexivity.
Qed.

(** X12: opening a named stream reaches the peer under the same id and
    name. When the serializer takes its message, [NewNamedStream] returns
    a stream that is registered under the id [nextChanID] issued, made as
    initiator, and named as asked, or by the decimal id if the name asked
    is empty. The bytes written for its message make a turn of the peer's
    loop, if that id is not registered there, register a new stream with
    the same id and name, made as non-initiator, start one handler on it
    and deliver nothing into its inbox. The peer's turn is one where its
    runtime gives the slice for the name: the length is at most
    [maxAlloc] and the memory is there. *)
Theorem NewNamedStream_reaches_peer (name name' : string) (sid : Z) (wA : World)
    (rdyB pickB : bool) (rest : list byte) :
  0 <= nextID (mp wA) < 2 ^ 61 - 1 ->
  sid = (if initiator (mp wA) then nextID (mp wA) + 1 else nextID (mp wA)) ->
  name' = (if decide (name = "") then pretty sid else name) ->
  Z.of_nat (length (String.list_byte_of_string name')) < 2 ^ 63 ->
  exists (p : nat) (wA' : World) (m : msg.t) (bytes : list byte),
    NewNamedStream true name wA = Ret (p, wA') /\
    heap wA' !! p = Some (Stream.newStream sid name' true) /\
    channels (mp wA') !! sid = Some p /\
    nextID (mp wA') = nextID (mp wA) + 2 /\
    outchan wA' = outchan wA ++ [m] /\
    frame_bytes (msg.header m) (msg.data m) = Some bytes /\
    forall (mem : Z -> bool) (wB : World),
      channels (mp wB) !! sid = None ->
      con (mp wB) = bytes ++ rest ->
      Z.of_nat (length (String.list_byte_of_string name')) <= maxAlloc ->
      mem (Z.of_nat (length (String.list_byte_of_string name'))) = true ->
      Serve_turn mem rdyB pickB wB =
        Ret (None,
             mkWorld (heap wB ++ [Stream.newStream sid name' false])
               (mk rest (nextID (mp wB)) (closed (mp wB)) (initiator (mp wB))
                  (<[sid := length (heap wB)]> (channels (mp wB))))
               (outchan wB) (handlers wB ++ [length (heap wB)])).
Proof.
  intros Hnext Hsid Hname Hlen.
  assert (Hid : 0 <= sid < 2 ^ 61) by (subst sid; destruct (initiator (mp wA)); lia).
  assert (Hissued : (if initiator (mp wA) then u64 (nextID (mp wA) + 1)
                     else nextID (mp wA)) = sid).
  { subst sid. destruct (initiator (mp wA)); [apply u64_small|]; lia. }
  destruct (frame_round_trip rdyB pickB sid Tag.NewStream
              (String.list_byte_of_string name') rest Hid ltac:(cbv; split; congruence) Hlen)
    as (bytes & Hf & Hturn).
  exists (length (heap wA)).
  eexists. exists (msg.mk (Z.lor (u64 (Z.shiftl sid 3)) Tag.NewStream)
                     (String.list_byte_of_string name')), bytes.
  split; [|split; [|split; [|split; [|split; [|split]]]]].
  - unfold NewNamedStream, nextChanID. run_M. rewrite Hissued, <- Hname. reflexivity.
  - cbn. apply list_lookup_middle. reflexivity.
  - cbn. apply lookup_insert_eq.
  - cbn. apply u64_small. lia.
  - reflexivity.
  - exact Hf.
  - intros mem wB Hnew Hcon Hmax Hgives. rewrite (Hturn mem wB Hcon Hmax Hgives).
    erewrite bind_Ret; [|apply dispatch_NewStream_unknown; exact Hnew].
    rewrite String.string_of_list_byte_of_string. reflexivity.
Qed.

Lemma NewNamedStream_reaches_peer_witness :
  exists (p : nat) (wA' : World) (m : msg.t) (bytes : list byte),
    NewNamedStream true "greet" (NewMultiplex [] true) = Ret (p, wA') /\
    heap wA' !! p = Some (Stream.newStream 1 "greet" true) /\
    channels (mp wA') !! 1 = Some p /\
    nextID (mp wA') = nextID (mp (NewMultiplex [] true)) + 2 /\
    outchan wA' = outchan (NewMultiplex [] true) ++ [m] /\
    frame_bytes (msg.header m) (msg.data m) = Some bytes /\
    forall (mem : Z -> bool) (wB : World),
      channels (mp wB) !! 1 = None ->
      con (mp wB) = bytes ++ [] ->
      Z.of_nat (length (String.list_byte_of_string "greet")) <= maxAlloc ->
      mem (Z.of_nat (length (String.list_byte_of_string "greet"))) = true ->
      Serve_turn mem true true wB =
        Ret (None,
             mkWorld (heap wB ++ [Stream.newStream 1 "greet" false])
               (mk [] (nextID (mp wB)) (closed (mp wB)) (initiator (mp wB))
                  (<[1 := length (heap wB)]> (channels (mp wB))))
               (outchan wB) (handlers wB ++ [length (heap wB)])).
Proof.
  apply (NewNamedStream_reaches_peer "greet" "greet" 1 (NewMultiplex [] true) true true []).
  - cbn. lia.
  - reflexivity.
  - reflexivity.
  - vm_compute. reflexivity.
Defined.

(** ** What the dispatch does with a frame *)

(** X13: a frame for a registered stream whose tag is not [Close] is
    data, whatever the tag, [NewStream] and the unassigned tags 5 to 7
    included. If the stream is not closed and its inbox has room, the
    payload is queued behind the payloads already there; no handler is
    started, nothing is sent, and the registry is left as it was. *)
Theorem dispatch_data_registered (rdy pick : bool) (ch tag : Z) (b : list byte)
    (w : World) (p : nat) (s : Stream.t) :
  channels (mp w) !! ch = Some p ->
  heap w !! p = Some s ->
  Stream.closed s = false ->
  is_closed (Stream.data_in s) = false ->
  (length (queue (Stream.data_in s)) < capacity (Stream.data_in s))%nat ->
  tag <> Tag.Close ->
  dispatch rdy pick ch tag b w =
    Ret (tt,
         mkWorld
           (<[p := Stream.with_data_in s
                     (set_queue (Stream.data_in s) (queue (Stream.data_in s) ++ [b]))]>
              (heap w))
           (mp w) (outchan w) (handlers w)).
Proof.
  intros Hch Hs Hc Hi Hroom Htag.
  unfold dispatch, Stream_receive. run_M. rewrite Hch. cbn.
  rewrite (bool_decide_eq_false_2 (tag = Tag.Close)) by exact Htag.
  rewrite Hs. rewrite (receive_open_room pick b s Hc Hi Hroom). reflexivity.
Qed.

Lemma dispatch_data_registered_witness :
  dispatch true true 1 Tag.NewStream [x68; x69]
    (mkWorld [Stream.newStream 1 "a" false] (mk [] 0 false false {[1 := O]}) [] [O])
  = Ret (tt,
         mkWorld
           (<[O := Stream.with_data_in (Stream.newStream 1 "a" false)
                     (set_queue (Stream.data_in (Stream.newStream 1 "a" false))
                        (queue (Stream.data_in (Stream.newStream 1 "a" false)) ++ [[x68; x69]]))]>
              [Stream.newStream 1 "a" false])
           (mk [] 0 false false {[1 := O]}) [] [O]).
Proof.
  apply (dispatch_data_registered true true 1 Tag.NewStream [x68; x69]
           (mkWorld [Stream.newStream 1 "a" false] (mk [] 0 false false {[1 := O]}) [] [O])
           O (Stream.newStream 1 "a" false)).
  - reflexivity.
  - reflexivity.
  - reflexivity.
  - reflexivity.
  - vm_compute. lia.
  - discriminate.
Defined.

(** X14: a stream need not be announced. A frame for an id that is not
    registered, with a tag that is neither [NewStream] nor [Close],
    registers a new stream for the id, made as non-initiator and with
    the empty name, starts one handler on it, and delivers the payload
    as the first of its inbox. *)
Theorem dispatch_opens_unannounced (rdy pick : bool) (ch tag : Z) (b : list byte)
    (w : World) :
  channels (mp w) !! ch = None ->
  tag <> Tag.NewStream ->
  tag <> Tag.Close ->
  dispatch rdy pick ch tag b w =
    Ret (tt,
         mkWorld
           (heap w ++
              [Stream.mk ch "" (Z.lor (u64 (Z.shiftl ch 3)) 1) false (Chan [b] 8 false) []])
           (with_channels (mp w) (<[ch := length (heap w)]> (channels (mp w))))
           (outchan w) (handlers w ++ [length (heap w)])).
Proof.
  intros Hnew Hns Hcl.
  unfold dispatch, Stream_receive. run_M. rewrite Hnew. cbn.
  rewrite (bool_decide_eq_false_2 (tag = Tag.NewStream)) by exact Hns.
  rewrite (bool_decide_eq_false_2 (tag = Tag.Close)) by exact Hcl.
  cbn. rewrite list_lookup_middle by reflexivity.
  rewrite receive_open_room by (first [reflexivity|cbn; lia]).
  cbn. rewrite insert_app_r_alt by lia. rewrite Nat.sub_diag. reflexivity.
Qed.

Lemma dispatch_opens_unannounced_witness :
  dispatch true true 3 Tag.Initiator [x68] (NewMultiplex [] false) =
    Ret (tt,
         mkWorld
           (heap (NewMultiplex [] false) ++
              [Stream.mk 3 "" (Z.lor (u64 (Z.shiftl 3 3)) 1) false (Chan [[x68]] 8 false) []])
           (with_channels (mp (NewMultiplex [] false))
              (<[3 := length (heap (NewMultiplex [] false))]>
                 (channels (mp (NewMultiplex [] false)))))
           (outchan (NewMultiplex [] false))
           (handlers (NewMultiplex [] false) ++ [length (heap (NewMultiplex [] false))])).
Proof.
  apply (dispatch_opens_unannounced true true 3 Tag.Initiator [x68] (NewMultiplex [] false)).
  - reflexivity.
  - discriminate.
  - discriminate.
Defined.

(** X15: a [Close] frame for a registered stream closes the stream and
    takes its id out of the registry, without starting a handler and
    without looking at the payload. If the stream was not closed yet,
    [closed] fires, the inbox is closed with what it holds, and a Close
    frame for the stream's own id is offered to the serializer, so the
    peer's Close is answered by one; if it was closed already, only the
    registry changes. The stream object stays where the handler holds
    it. *)
Theorem dispatch_Close_registered (rdy pick : bool) (ch : Z) (b : list byte)
    (w : World) (p : nat) (s : Stream.t) :
  channels (mp w) !! ch = Some p ->
  heap w !! p = Some s ->
  stream_ok s ->
  dispatch rdy pick ch Tag.Close b w =
    Ret (tt,
         mkWorld
           (if Stream.closed s then heap w
            else <[p := Stream.mk (Stream.id s) (Stream.name s) (Stream.header s) true
                          (Chan (queue (Stream.data_in s)) (capacity (Stream.data_in s)) true)
                          (Stream.buf s)]> (heap w))
           (with_channels (mp w) (delete ch (channels (mp w))))
           (outchan w ++
              (if Stream.closed s then []
               else if rdy
                    then [msg.mk (Z.lor (u64 (Z.shiftl (Stream.id s) 3)) Tag.Close) []]
                    else []))
           (handlers w)).
Proof.
  intros Hch Hs Hok.
  unfold dispatch. unfold mbind at 1, M_bind, bind, get_mp. rewrite Hch.
  erewrite bind_Ret; [|reflexivity]. cbn iota beta.
  rewrite (bool_decide_eq_true_2 (Tag.Close = Tag.Close)) by reflexivity.
  destruct (Stream.closed s) eqn:Hc.
  - erewrite bind_Ret; [|apply (Stream_Close_at_closed rdy p w s Hs Hc)].
    run_M. rewrite app_nil_r. reflexivity.
  - erewrite bind_Ret;
      [|unfold Stream_Close; run_M; rewrite Hs;
        rewrite (Stream_Close_open rdy s Hc (Hok Hc)); reflexivity].
    run_M. reflexivity.
Qed.

Lemma dispatch_Close_registered_witness :
  dispatch true true 1 Tag.Close [x07]
    (mkWorld [Stream.mk 1 "a" 9 false (Chan [[x68]] 8 false) []]
       (mk [] 0 false false {[1 := O]}) [] [O])
  = Ret (tt,
         mkWorld
           [Stream.mk 1 "a" 9 true (Chan [[x68]] 8 true) []]
           (mk [] 0 false false (delete 1 {[1 := O]}))
           [msg.mk 12 []] [O]).
Proof.
  exact (dispatch_Close_registered true true 1 [x07]
           (mkWorld [Stream.mk 1 "a" 9 false (Chan [[x68]] 8 false) []]
              (mk [] 0 false false {[1 := O]}) [] [O])
           O (Stream.mk 1 "a" 9 false (Chan [[x68]] 8 false) [])
           eq_refl eq_refl (fun _ => eq_refl)).
Defined.

(** ** Closing every stream *)

Lemma Stream_Close_at_closes (rdy : bool) (p : nat) (w : World) :
  (p < length (heap w))%nat -> Forall stream_ok (heap w) ->
  exists w' : World,
    Stream_Close rdy p w = Ret (None, w') /\
    mp w' = mp w /\
    handlers w' = handlers w /\
    length (heap w') = length (heap w) /\
    Forall stream_ok (heap w') /\
    (exists s : Stream.t, heap w' !! p = Some s /\ Stream.closed s = true) /\
    (forall (q : nat) (s : Stream.t),
       heap w !! q = Some s -> Stream.closed s = true ->
       exists s' : Stream.t, heap w' !! q = Some s' /\ Stream.closed s' = true).
Proof.
  intros Hp Hok.
  destruct (lookup_lt_is_Some_2 _ _ Hp) as [s Hs].
  destruct (Stream.closed s) eqn:Hc.
  - exists w. rewrite (Stream_Close_at_closed rdy p w s Hs Hc).
    repeat split; try assumption; eauto.
  - pose proof (Forall_lookup_1 _ _ _ _ Hok Hs Hc) as Hi.
    eexists. split.
    + unfold Stream_Close. run_M. rewrite Hs.
      rewrite (Stream_Close_open rdy s Hc Hi). cbn. reflexivity.
    + cbn. split; [reflexivity|]. split; [reflexivity|].
      split; [apply length_insert|]. split.
      * apply Forall_insert; [exact Hok|]. intros Habs. discriminate Habs.
      * split.
        -- eexists. split; [apply list_lookup_insert_eq; exact Hp|reflexivity].
        -- intros q s0 Hq Hc0. destruct (decide (p = q)) as [<-|Hne].
           ++ eexists. split; [apply list_lookup_insert_eq; exact Hp|reflexivity].
           ++ exists s0. rewrite list_lookup_insert_ne by exact Hne. auto.
Qed.

Lemma Close_range_closes (rdy : nat -> bool) (l : list (Z * nat)) :
  forall w : World,
    Forall (fun e => (e.2 < length (heap w))%nat) l ->
    Forall stream_ok (heap w) ->
    exists w' : World,
      Close_range rdy l w = Ret (None, w') /\
      shutdown_range rdy l w = Ret (tt, w') /\
      mp w' = mp w /\
      handlers w' = handlers w /\
      length (heap w') = length (heap w) /\
      Forall stream_ok (heap w') /\
      (forall (q : nat) (s : Stream.t),
         (heap w !! q = Some s /\ Stream.closed s = true) \/
         (exists ch : Z, (ch, q) ∈ l) ->
         (q < length (heap w))%nat ->
         exists s' : Stream.t, heap w' !! q = Some s' /\ Stream.closed s' = true).
Proof.
  induction l as [|[ch p] l IH]; intros w Hl Hok.
  - exists w. repeat split; try assumption.
    intros q s [[Hq Hc]|[ch Hin]] _; [eauto|]. apply elem_of_nil in Hin. contradiction.
  - apply Forall_cons in Hl as [Hp Hl]. cbn in Hp.
    destruct (Stream_Close_at_closes (rdy p) p w Hp Hok)
      as (w1 & Hc & Hmp & Hh & Hlen & Hok1 & Hclosed & Hstay).
    destruct (IH w1) as (w' & Hr & Hsd & Hmp' & Hh' & Hlen' & Hok' & Hall).
    + rewrite Hlen. exact Hl.
    + exact Hok1.
    + exists w'. split; [|split; [|split; [|split; [|split; [|split]]]]].
      * cbn [Close_range]. rewrite (bind_Ret _ _ _ _ _ Hc). exact Hr.
      * cbn [shutdown_range]. rewrite (bind_Ret _ _ _ _ _ Hc). exact Hsd.
      * congruence.
      * congruence.
      * congruence.
      * exact Hok'.
      * intros q s Hcase Hq.
        assert (Hq1 : exists s1, heap w1 !! q = Some s1 /\ Stream.closed s1 = true \/
                                 exists ch', (ch', q) ∈ l).
        { destruct Hcase as [[Hs Hcs]|[ch' Hin]].
          - destruct (Hstay q s Hs Hcs) as (s1 & Hs1 & Hc1). exists s1. left. auto.
          - apply elem_of_cons in Hin as [Heq|Hin].
            + injection Heq as _ ->. destruct Hclosed as (s1 & Hs1 & Hc1).
              exists s1. left. auto.
            + exists s. right. eauto. }
        destruct Hq1 as (s1 & Hq1). apply (Hall q s1); [|lia].
        destruct Hq1 as [H1|H1]; [left; exact H1|right; exact H1].
Qed.

(** X16: [Multiplex.Close] on a multiplexer that is not closed yet fires
    the multiplexer's [closed], so that [IsClosed] answers true from then
    on, and closes every stream of the registry: when it returns, each
    registered stream has its [closed] fired, streams closed before are
    still closed, and the registry itself is unchanged; no entry is
    taken out. *)
Theorem Close_closes_all (rdy : nat -> bool) (w : World) :
  wf w ->
  closed (mp w) = false ->
  exists w' : World,
    Multiplex.Close rdy w = Ret (None, w') /\
    IsClosed w' = Ret (true, w') /\
    channels (mp w') = channels (mp w) /\
    wf w' /\
    forall (ch : Z) (p : nat),
      channels (mp w) !! ch = Some p ->
      exists s : Stream.t, heap w' !! p = Some s /\ Stream.closed s = true.
Proof.
  intros [Hok Hptr] Hc.
  set (w0 := with_mp w (with_closed (mp w) true)).
  destruct (Close_range_closes rdy (map_to_list (channels (mp w))) w0)
    as (w' & Hr & _ & Hmp & _ & Hlen & Hok' & Hall).
  - apply Forall_forall. intros [ch p] Hin. cbn.
    apply elem_of_map_to_list in Hin. eapply Hptr. exact Hin.
  - exact Hok.
  - exists w'. split; [|split; [|split; [|split]]].
    + unfold Multiplex.Close, IsClosed. run_M. rewrite Hc. exact Hr.
    + unfold IsClosed. run_M. rewrite Hmp. reflexivity.
    + rewrite Hmp. reflexivity.
    + split; [exact Hok'|]. intros ch p. rewrite Hmp, Hlen. cbn. apply Hptr.
    + intros ch p Hch.
      destruct (lookup_lt_is_Some_2 (heap w) p (Hptr ch p Hch)) as [s Hs].
      apply (Hall p s); [|cbn; eapply Hptr; exact Hch].
      right. exists ch. apply elem_of_map_to_list. exact Hch.
Qed.

Lemma Close_closes_all_witness :
  exists w' : World,
    Multiplex.Close (fun _ => true)
      (mkWorld [Stream.newStream 3 "" true] (mk [] 4 false true {[3 := O]}) [] [])
    = Ret (None, w') /\
    IsClosed w' = Ret (true, w') /\
    channels (mp w') = {[3 := O]} /\
    wf w' /\
    forall (ch : Z) (p : nat),
      ({[3 := O]} : gmap Z nat) !! ch = Some p ->
      exists s : Stream.t, heap w' !! p = Some s /\ Stream.closed s = true.
Proof.
  refine (Close_closes_all (fun _ => true)
            (mkWorld [Stream.newStream 3 "" true] (mk [] 4 false true {[3 := O]}) [] [])
            _ _).
  - split.
    + constructor; [apply stream_ok_newStream|constructor].
    + intros ch p Hp. cbn in Hp. apply lookup_singleton_Some in Hp as [_ <-]. cbn. lia.
  - reflexivity.
Defined.

(** ** What [Serve] returns, and in what state *)

Lemma Serve_loop_wf (mem : nat -> Z -> bool) (rdy pick : nat -> bool) (fuel : nat) :
  forall (i : nat) (w w' : World) (r : option error),
    wf w -> Serve_loop mem fuel rdy pick i w = Ret (r, w') -> wf w'.
Proof.
  induction fuel as [|fuel IH]; intros i w w' r Hwf; cbn [Serve_loop]; [discriminate|].
  intros H. apply bind_inv in H as (t & w1 & Ht & H).
  apply Serve_turn_wf in Ht; [|exact Hwf].
  destruct t as [e|].
  - injection H as _ <-. exact Ht.
  - eapply IH; [exact Ht|exact H].
Qed.

(** X17: when [Serve] returns, for whatever reason, the deferred
    [shutdown] has closed every stream that is still registered: started
    in a state the methods keep to, it returns in such a state, and each
    entry of the registry then points at a stream whose [closed] has
    fired. *)
Theorem Serve_closes_all (mem : nat -> Z -> bool) (rdy pick rdy_sd : nat -> bool)
    (w w' : World) (r : option error) :
  wf w ->
  Serve mem rdy pick rdy_sd w = Ret (r, w') ->
  wf w' /\
  forall (ch : Z) (p : nat),
    channels (mp w') !! ch = Some p ->
    exists s : Stream.t, heap w' !! p = Some s /\ Stream.closed s = true.
Proof.
  intros Hwf H. unfold Serve in H.
  apply bind_inv in H as (m & w0 & Hm & H). injection Hm as <- <-.
  apply bind_inv in H as (r1 & w1 & Hloop & H).
  apply Serve_loop_wf in Hloop; [|exact Hwf]. destruct Hloop as [Hok Hptr].
  apply bind_inv in H as (u & w2 & Hsd & H). injection H as _ <-.
  unfold shutdown in Hsd. apply bind_inv in Hsd as (m1 & w1' & Hm1 & Hsd).
  injection Hm1 as <- <-.
  destruct (Close_range_closes rdy_sd (map_to_list (channels (mp w1))) w1)
    as (w3 & _ & Hsd3 & Hmp & _ & Hlen & Hok' & Hall).
  - apply Forall_forall. intros [ch p] Hin. cbn.
    apply elem_of_map_to_list in Hin. eapply Hptr. exact Hin.
  - exact Hok.
  - rewrite Hsd3 in Hsd. injection Hsd as _ <-. split.
    + split; [exact Hok'|]. intros ch p. rewrite Hmp, Hlen. apply Hptr.
    + intros ch p Hch. rewrite Hmp in Hch.
      destruct (lookup_lt_is_Some_2 (heap w1) p (Hptr ch p Hch)) as [s Hs].
      apply (Hall p s); [|eapply Hptr; exact Hch].
      right. exists ch. apply elem_of_map_to_list. exact Hch.
Qed.

Lemma Serve_closes_all_witness :
  let w := NewMultiplex [x08; x01; x61; x0a; x01; x68] false in
  let w' := mkWorld [Stream.mk 1 "a" 9 true (Chan [[x68]] 8 true) []]
              (mk [] 0 false false {[1 := O]}) [] [O] in
  wf w' /\
  forall (ch : Z) (p : nat),
    channels (mp w') !! ch = Some p ->
    exists s : Stream.t, heap w' !! p = Some s /\ Stream.closed s = true.
Proof.
  intros w w'.
  refine (Serve_closes_all (fun _ _ => true)
            (fun _ => true) (fun _ => true) (fun _ => false) w w' None _ _).
  - apply wf_NewMultiplex.
  - vm_compute. reflexivity.
Defined.

Lemma DecodeVarint_error_kind (r r' : list byte) (v : Z) (m : nat) (e : error) :
  DecodeVarint r = (v, m, Some e, r') ->
  (e = EOF /\ r' = []) \/ e = errorString "Too large of a number!".
Proof.
  unfold DecodeVarint. intros H. apply DecodeVarint_loop_inv in H; [|lia].
  destruct H as (_ & _ & [(-> & -> & _)|(-> & _)]); auto.
Qed.

Lemma ReadFull_error_kind (l : nat) (r got r' : list byte) (e : error) :
  ReadFull l r = (got, Some e, r') -> (e = EOF \/ e = ErrUnexpectedEOF) /\ r' = [].
Proof.
  unfold ReadFull. destruct (l <=? length r)%nat; [discriminate|].
  destruct r; intros [= _ <- <-]; auto.
Qed.

(** The ways a turn can end the loop. *)
Lemma Serve_turn_return (mem : Z -> bool) (rdy pick : bool) (w w' : World)
    (r : option error) :
  Serve_turn mem rdy pick w = Ret (Some r, w') ->
  ((r = None \/ r = Some ErrUnexpectedEOF) /\ con (mp w') = []) \/
  r = Some (errorString "Too large of a number!").
Proof.
  unfold Serve_turn. intros H.
  apply bind_inv in H as ([[ch tag] err] & w1 & Hh & H).
  rewrite readNextHeader_eq in Hh.
  destruct (DecodeVarint (con (mp w))) as [[[h n] err1] r1] eqn:Hd.
  destruct err1 as [e|]; injection Hh as <- <- <- <-.
  { apply DecodeVarint_error_kind in Hd as [[-> ->]| ->].
    - injection H as <- <-. left. auto.
    - injection H as <- <-. right. reflexivity. }
  apply bind_inv in H as ([b err] & w2 & Hn & H).
  rewrite readNext_eq in Hn. cbn [mp with_mp con with_con] in Hn.
  destruct (DecodeVarint r1) as [[[l n'] err2] r2] eqn:Hd2.
  destruct err2 as [e|].
  { injection Hn as <- <- <-.
    apply DecodeVarint_error_kind in Hd2 as [[-> ->]| ->].
    - injection H as <- <-. left. auto.
    - injection H as <- <-. right. reflexivity. }
  destruct (maxAlloc <? l); [discriminate|].
  destruct ((l =? 0) || mem l); [|discriminate].
  destruct (ReadFull (Z.to_nat l) r2) as [[got err3] r3] eqn:Hf.
  destruct err3 as [e|].
  { injection Hn as <- <- <-.
    apply ReadFull_error_kind in Hf as [[-> | ->] ->]; injection H as <- <-; left; auto. }
  destruct (bool_decide _); [|discriminate]. injection Hn as <- <- <-.
  apply bind_inv in H as (u & w3 & _ & H). discriminate H.
Qed.

Lemma Serve_loop_return (mem : nat -> Z -> bool) (rdy pick : nat -> bool)
    (fuel : nat) :
  forall (i : nat) (w w' : World) (r : option error),
    Serve_loop mem fuel rdy pick i w = Ret (r, w') ->
    ((r = None \/ r = Some ErrUnexpectedEOF) /\ con (mp w') = []) \/
    r = Some (errorString "Too large of a number!").
Proof.
  induction fuel as [|fuel IH]; intros i w w' r; cbn [Serve_loop]; [discriminate|].
  intros H. apply bind_inv in H as (t & w1 & Ht & H).
  destruct t as [e|].
  - injection H as <- <-. eapply Serve_turn_return. exact Ht.
  - eapply IH. exact H.
Qed.

Lemma shutdown_range_mp (rdy : nat -> bool) (l : list (Z * nat)) :
  forall (w w' : World) (u : unit),
    shutdown_range rdy l w = Ret (u, w') -> mp w' = mp w.
Proof.
  induction l as [|[ch p] l IH]; intros w w' u.
  - cbn. intros [= _ <-]. reflexivity.
  - cbn [shutdown_range]. intros H.
    apply bind_inv in H as (err & w1 & Hc & Hk).
    apply Stream_Close_at in Hc as (s & s' & sent & _ & _ & ->).
    apply IH in Hk. rewrite Hk. reflexivity.
Qed.

(** X18: on a transport whose reads fail in one way only, with [io.EOF]
    once its bytes have all been delivered (the transport that [con]
    stands for: a list of bytes has no other read error), [Serve]
    returns nil, [io.ErrUnexpectedEOF], or the decoder's error for a
    varint that is too large, and nothing else; in particular never
    [io.EOF]. When it returns nil or [io.ErrUnexpectedEOF] it has read
    the transport to its end. Read errors of other kinds, which a
    connection can have, are outside this statement. *)
Theorem Serve_returns (mem : nat -> Z -> bool) (rdy pick rdy_sd : nat -> bool)
    (w w' : World) (r : option error) :
  Serve mem rdy pick rdy_sd w = Ret (r, w') ->
  ((r = None \/ r = Some ErrUnexpectedEOF) /\ con (mp w') = []) \/
  r = Some (errorString "Too large of a number!").
Proof.
  unfold Serve. intros H.
  apply bind_inv in H as (m & w0 & Hm & H). injection Hm as <- <-.
  apply bind_inv in H as (r1 & w1 & Hloop & H).
  apply bind_inv in H as (u & w2 & Hsd & H). injection H as <- <-.
  unfold shutdown in Hsd. apply bind_inv in Hsd as (m1 & w1' & Hm1 & Hsd).
  injection Hm1 as <- <-. apply shutdown_range_mp in Hsd. rewrite Hsd.
  eapply Serve_loop_return. exact Hloop.
Qed.

Lemma Serve_returns_witness :
  ((Some ErrUnexpectedEOF = None \/ Some ErrUnexpectedEOF = Some ErrUnexpectedEOF) /\
   con (mp (NewMultiplex [] false)) = []) \/
  Some ErrUnexpectedEOF = Some (errorString "Too large of a number!").
Proof.
  refine (Serve_returns (fun _ _ => true)
            (fun _ => true) (fun _ => true) (fun _ => true)
            (NewMultiplex [x0a; x03; x61] false) (NewMultiplex [] false)
            (Some ErrUnexpectedEOF) _).
  vm_compute. reflexivity.
Defined.

Lemma frame_bytes_inv (h : Z) (d f : list byte) :
  Z.of_nat (length d) < 2 ^ 63 ->
  frame_bytes h d = Some f ->
  exists hb lb : list byte,
    EncodeVarint h = Some hb /\
    EncodeVarint (Z.of_nat (length d)) = Some lb /\
    f = hb ++ lb ++ d.
Proof.
  intros Hlen. unfold frame_bytes. rewrite u64_small by lia.
  destruct (EncodeVarint h) as [hb|]; [|discriminate]. cbn.
  destruct (EncodeVarint (Z.of_nat (length d))) as [lb|]; [|discriminate]. cbn.
  intros [= <-]. eauto.
Qed.

Lemma Serve_turn_empty (mem : Z -> bool) (rdy pick : bool) (w : World) :
  con (mp w) = [] ->
  Serve_turn mem rdy pick w = Ret (Some None, with_mp w (with_con (mp w) [])).
Proof.
  intros Hcon. unfold Serve_turn.
  erewrite bind_Ret; [|rewrite readNextHeader_eq, Hcon; reflexivity].
  reflexivity.
Qed.

(** A turn that returns on a whole frame got its slice from [make]. *)
Lemma Serve_turn_frame_made (mem : Z -> bool) (rdy pick : bool) (w w1 : World)
    (header : Z) (pl hb lb rest : list byte) (t : option (option error)) :
  0 <= header < 2 ^ 64 ->
  Z.of_nat (length pl) < 2 ^ 63 ->
  EncodeVarint header = Some hb ->
  EncodeVarint (Z.of_nat (length pl)) = Some lb ->
  con (mp w) = hb ++ lb ++ pl ++ rest ->
  Serve_turn mem rdy pick w = Ret (t, w1) ->
  Z.of_nat (length pl) <= maxAlloc /\
  (Z.of_nat (length pl) =? 0) || mem (Z.of_nat (length pl)) = true.
Proof.
  intros Hh Hl Ehb Elb Hcon. unfold Serve_turn. intros H.
  apply bind_inv in H as ([[ch tag] err] & w0 & Hhd & H).
  rewrite readNextHeader_eq, Hcon, (DecodeVarint_encoded header hb _ Hh Ehb) in Hhd.
  injection Hhd as <- <- <- <-.
  apply bind_inv in H as ([b err] & w2 & Hn & _).
  rewrite readNext_eq in Hn. cbn [mp with_mp con with_con] in Hn.
  rewrite (DecodeVarint_encoded (Z.of_nat (length pl)) lb _ ltac:(lia) Elb) in Hn.
  cbv zeta iota beta in Hn.
  destruct (Z.ltb_spec maxAlloc (Z.of_nat (length pl))) as [|Hle]; [discriminate|].
  destruct ((Z.of_nat (length pl) =? 0) || mem (Z.of_nat (length pl)));
    [auto|discriminate].
Qed.

(** X19: a transport that delivers whole frames and then ends is a clean
    end. If the bytes to come are the frames of any messages (headers in
    uint64, payloads shorter than 2^63), as the serializer writes them,
    one after the other and nothing else, then [Serve], if it returns,
    returns nil, whatever the frames made the dispatch do. A run in which
    [make] does not give the slice for a payload does not return. *)
Theorem Serve_whole_frames (rdy_sd : nat -> bool) (ms : list msg.t)
    (fs : list (list byte)) :
  Forall2 (fun m f =>
             0 <= msg.header m < 2 ^ 64 /\
             Z.of_nat (length (msg.data m)) < 2 ^ 63 /\
             frame_bytes (msg.header m) (msg.data m) = Some f) ms fs ->
  forall (mem : nat -> Z -> bool) (rdy pick : nat -> bool) (w w' : World)
         (r : option error),
    con (mp w) = concat fs ->
    Serve mem rdy pick rdy_sd w = Ret (r, w') ->
    r = None.
Proof.
  induction 1 as [|m f ms fs (Hh & Hlen & Hf) _ IH]; intros mem rdy pick w w' r Hcon H.
  - unfold Serve in H.
    apply bind_inv in H as (m & w0 & Hm & H). injection Hm as <- <-.
    apply bind_inv in H as (r1 & w1 & Hloop & H).
    cbn [Serve_loop] in Hloop.
    rewrite (bind_Ret _ _ _ _ _ (Serve_turn_empty _ _ _ w Hcon)) in Hloop.
    injection Hloop as <- <-.
    apply bind_inv in H as (u & w2 & _ & H). injection H as <- _. reflexivity.
  - destruct (frame_bytes_inv _ _ _ Hlen Hf) as (hb & lb & Ehb & Elb & ->).
    assert (Hturn : exists w1, Serve_turn (mem O) (rdy O) (pick O) w = Ret (None, w1) /\
                               con (mp w1) = concat fs).
    { pose proof H as H0. unfold Serve in H0.
      apply bind_inv in H0 as (m0 & w0 & Hm & H0). injection Hm as <- <-.
      apply bind_inv in H0 as (r1 & w1 & Hloop & _).
      cbn [Serve_loop] in Hloop.
      apply bind_inv in Hloop as (t & w2 & Ht & _).
      assert (Hcon' : con (mp w) = hb ++ lb ++ msg.data m ++ concat fs)
        by (rewrite Hcon; cbn [concat]; rewrite <- !app_assoc; reflexivity).
      destruct (Serve_turn_frame_made _ _ _ w w2 (msg.header m) (msg.data m) hb lb
                  (concat fs) t Hh Hlen Ehb Elb Hcon' Ht) as [Hmax Hgives].
      rewrite (Serve_turn_frame _ _ _ w (msg.header m) (msg.data m) hb lb (concat fs)
                 Hh Hmax Hgives Ehb Elb Hcon') in Ht.
      apply bind_inv in Ht as (u & w3 & Hd & Ht). injection Ht as <- <-.
      exists w3. split.
      - rewrite (Serve_turn_frame _ _ _ w (msg.header m) (msg.data m) hb lb (concat fs)
                   Hh Hmax Hgives Ehb Elb Hcon').
        rewrite (bind_Ret _ _ _ _ _ Hd). reflexivity.
      - apply dispatch_con in Hd. rewrite Hd. reflexivity. }
    destruct Hturn as (w1 & Ht & Hcon1).
    rewrite (Serve_after_turn mem rdy pick rdy_sd w w1 Ht) in H.
    eapply IH; [exact Hcon1|exact H].
Qed.

Lemma Serve_whole_frames_witness :
  Serve (fun _ _ => true) (fun _ => true) (fun _ => true) (fun _ => false)
    (NewMultiplex [x08; x01; x61; x0a; x02; x68; x69] false)
  = Ret (None,
         mkWorld [Stream.mk 1 "a" 9 true (Chan [[x68; x69]] 8 true) []]
           (mk [] 0 false false {[1 := O]}) [] [O]) /\
  (None : option error) = None.
Proof.
  split; [vm_compute; reflexivity|].
  refine (Serve_whole_frames (fun _ => false)
            [msg.mk 8 [x61]; msg.mk 10 [x68; x69]]
            [[x08; x01; x61]; [x0a; x02; x68; x69]] _
            (fun _ _ => true) (fun _ => true) (fun _ => true)
            (NewMultiplex [x08; x01; x61; x0a; x02; x68; x69] false)
            (mkWorld [Stream.mk 1 "a" 9 true (Chan [[x68; x69]] 8 true) []]
               (mk [] 0 false false {[1 := O]}) [] [O])
            None _ _).
  - repeat constructor; vm_compute; congruence.
  - reflexivity.
  - vm_compute. reflexivity.
Defined.

(** ** The serializer's writes *)

Lemma write_msg_cases (wfail : nat -> option error) (m : msg.t) (c : wire)
    (hb lb : list byte) :
  EncodeVarint (msg.header m) = Some hb ->
  EncodeVarint (u64 (Z.of_nat (length (msg.data m)))) = Some lb ->
  write_msg wfail m c =
    match wfail (wcalls c) with
    | Some e => inr (Error e)
    | None =>
        match wfail (S (wcalls c)) with
        | Some e => inr (Error e)
        | None =>
            match wfail (S (S (wcalls c))) with
            | Some e => inr (Error e)
            | None => inl (Wire (wbytes c ++ hb ++ lb ++ msg.data m) (3 + wcalls c))
            end
        end
    end.
Proof.
  intros Ehb Elb. unfold write_msg, con_Write. rewrite Ehb.
  destruct (wfail (wcalls c)); [reflexivity|]. cbn. rewrite Elb.
  destruct (wfail (S (wcalls c))); [reflexivity|]. cbn.
  destruct (wfail (S (S (wcalls c)))); [reflexivity|].
  rewrite <- !app_assoc. reflexivity.
Qed.

Lemma frame_bytes_uint64 (m : msg.t) :
  0 <= msg.header m < 2 ^ 64 ->
  exists hb lb : list byte,
    EncodeVarint (msg.header m) = Some hb /\
    EncodeVarint (u64 (Z.of_nat (length (msg.data m)))) = Some lb /\
    frame_bytes (msg.header m) (msg.data m) = Some (hb ++ lb ++ msg.data m).
Proof.
  intros Hh.
  destruct (EncodeVarint_uint64 _ Hh) as (hb & Ehb).
  destruct (EncodeVarint_uint64 _ (u64_range (Z.of_nat (length (msg.data m))))) as (lb & Elb).
  exists hb, lb. split; [exact Ehb|]. split; [exact Elb|].
  unfold frame_bytes. rewrite Ehb. cbn. rewrite Elb. reflexivity.
Qed.

Lemma handleOutgoing_loop_healthy (wfail : nat -> option error) (pick : nat -> bool)
    (ms : list msg.t) :
  (forall k : nat, wfail k = None) ->
  Forall (fun m => 0 <= msg.header m < 2 ^ 64) ms ->
  forall (i : nat) (c : wire),
    exists fs : list (list byte),
      Forall2 (fun m f => frame_bytes (msg.header m) (msg.data m) = Some f) ms fs /\
      handleOutgoing_loop wfail pick i false false c ms =
        Waiting (Wire (wbytes c ++ concat fs) (3 * length ms + wcalls c)).
Proof.
  intros Hok. induction 1 as [|m ms Hm _ IH]; intros i c.
  - exists []. split; [constructor|]. cbn. rewrite app_nil_r. destruct c; reflexivity.
  - destruct (frame_bytes_uint64 m Hm) as (hb & lb & Ehb & Elb & Hf).
    destruct (IH (S i) (Wire (wbytes c ++ hb ++ lb ++ msg.data m) (3 + wcalls c)))
      as (fs & Hfs & Hrun).
    exists ((hb ++ lb ++ msg.data m) :: fs). split; [constructor; assumption|].
    cbn [handleOutgoing_loop]. unfold can_recv. cbn [queue is_closed orb select2 negb].
    rewrite bool_decide_eq_false_2 by discriminate. cbn [negb select2].
    rewrite (write_msg_cases wfail m c hb lb Ehb Elb), !Hok.
    rewrite Hrun. cbn [wbytes wcalls concat length].
    rewrite <- !app_assoc. do 2 f_equal. lia.
Qed.

(** X20: on a transport whose writes succeed, with the multiplexer not
    closed, [handleOutgoing] takes every message that senders hand over,
    in order, and then waits for more. What it has written by then is the
    frames of those messages one after the other, each frame whole:
    header varint, length varint, payload, with no bytes of another
    message in between; three writes a message. *)
Theorem handleOutgoing_writes_frames (wfail : nat -> option error) (pick : nat -> bool)
    (c : wire) (ms : list msg.t) :
  (forall k : nat, wfail k = None) ->
  Forall (fun m => 0 <= msg.header m < 2 ^ 64) ms ->
  exists fs : list (list byte),
    Forall2 (fun m f => frame_bytes (msg.header m) (msg.data m) = Some f) ms fs /\
    handleOutgoing wfail pick false c ms =
      Waiting (Wire (wbytes c ++ concat fs) (3 * length ms + wcalls c)).
Proof. intros Hok Hms. apply handleOutgoing_loop_healthy; assumption. Qed.

Lemma handleOutgoing_writes_frames_witness :
  exists fs : list (list byte),
    Forall2 (fun m f => frame_bytes (msg.header m) (msg.data m) = Some f)
      [msg.mk 8 [x61]; msg.mk 10 [x68; x69]] fs /\
    handleOutgoing (fun _ => None) (fun _ => true) false (Wire [] 0)
      [msg.mk 8 [x61]; msg.mk 10 [x68; x69]] =
      Waiting (Wire (wbytes (Wire [] 0) ++ concat fs)
                 (3 * length [msg.mk 8 [x61]; msg.mk 10 [x68; x69]] + wcalls (Wire [] 0))).
Proof.
  apply (handleOutgoing_writes_frames (fun _ => None) (fun _ => true) (Wire [] 0)
           [msg.mk 8 [x61]; msg.mk 10 [x68; x69]]).
  - reflexivity.
  - repeat constructor; vm_compute; congruence.
Defined.

Lemma handleOutgoing_loop_failure (wfail : nat -> option error) (pick : nat -> bool)
    (e : error) (ms : list msg.t) :
  Forall (fun m => 0 <= msg.header m < 2 ^ 64) ms ->
  forall (i k : nat) (c : wire),
    (k < 3 * length ms)%nat ->
    (forall j : nat, (j < k)%nat -> wfail (wcalls c + j)%nat = None) ->
    wfail (wcalls c + k)%nat = Some e ->
    handleOutgoing_loop wfail pick i false false c ms = Panicked (Error e).
Proof.
  induction 1 as [|m ms Hm _ IH]; intros i k c Hk Hbefore Hfail; [cbn in Hk; lia|].
  destruct (frame_bytes_uint64 m Hm) as (hb & lb & Ehb & Elb & _).
  cbn [handleOutgoing_loop]. unfold can_recv. cbn [queue is_closed orb select2 negb].
  rewrite bool_decide_eq_false_2 by discriminate. cbn [negb select2].
  rewrite (write_msg_cases wfail m c hb lb Ehb Elb).
  destruct k as [|[|[|k]]].
  - rewrite Nat.add_0_r in Hfail. rewrite Hfail. reflexivity.
  - pose proof (Hbefore O ltac:(lia)) as H0. rewrite Nat.add_0_r in H0. rewrite H0.
    replace (wcalls c + 1)%nat with (S (wcalls c)) in Hfail by lia.
    rewrite Hfail. reflexivity.
  - pose proof (Hbefore O ltac:(lia)) as H0. rewrite Nat.add_0_r in H0. rewrite H0.
    pose proof (Hbefore 1%nat ltac:(lia)) as H1.
    replace (wcalls c + 1)%nat with (S (wcalls c)) in H1 by lia. rewrite H1.
    replace (wcalls c + 2)%nat with (S (S (wcalls c))) in Hfail by lia.
    rewrite Hfail. reflexivity.
  - pose proof (Hbefore O ltac:(lia)) as H0. rewrite Nat.add_0_r in H0. rewrite H0.
    pose proof (Hbefore 1%nat ltac:(lia)) as H1.
    replace (wcalls c + 1)%nat with (S (wcalls c)) in H1 by lia. rewrite H1.
    pose proof (Hbefore 2%nat ltac:(lia)) as H2.
    replace (wcalls c + 2)%nat with (S (S (wcalls c))) in H2 by lia. rewrite H2.
    apply (IH (S i) k).
    + cbn [length] in Hk. lia.
    + intros j Hj. cbn [wcalls]. replace (3 + wcalls c + j)%nat with (wcalls c + (3 + j))%nat by lia.
      apply Hbefore. lia.
    + cbn [wcalls]. replace (3 + wcalls c + k)%nat with (wcalls c + S (S (S k)))%nat by lia.
      exact Hfail.
Qed.

(** X21: a write error on the transport is fatal to the serializer. With
    the multiplexer not closed, if among the writes for the messages
    handed over (three a message) one fails, and those before it
    succeeded, [handleOutgoing] panics with that error, whichever of the
    three writes of a frame it was; it neither retries nor goes on to the
    next message. *)
Theorem handleOutgoing_write_error_panics (wfail : nat -> option error)
    (pick : nat -> bool) (c : wire) (ms : list msg.t) (k : nat) (e : error) :
  Forall (fun m => 0 <= msg.header m < 2 ^ 64) ms ->
  (k < 3 * length ms)%nat ->
  (forall j : nat, (j < k)%nat -> wfail (wcalls c + j)%nat = None) ->
  wfail (wcalls c + k)%nat = Some e ->
  handleOutgoing wfail pick false c ms = Panicked (Error e).
Proof. intros Hms Hk Hb Hf. apply (handleOutgoing_loop_failure wfail pick e ms Hms 0 k c Hk Hb Hf). Qed.

Lemma handleOutgoing_write_error_panics_witness :
  handleOutgoing (fun k => if (k =? 4)%nat then Some (errorString "broken pipe") else None)
    (fun _ => true) false (Wire [] 0)
    [msg.mk 8 [x61]; msg.mk 10 [x68; x69]; msg.mk 12 []]
  = Panicked (Error (errorString "broken pipe")).
Proof.
  apply (handleOutgoing_write_error_panics
           (fun k => if (k =? 4)%nat then Some (errorString "broken pipe") else None)
           (fun _ => true) (Wire [] 0)
           [msg.mk 8 [x61]; msg.mk 10 [x68; x69]; msg.mk 12 []] 4
           (errorString "broken pipe")).
  - repeat constructor; vm_compute; congruence.
  - vm_compute. lia.
  - intros j Hj. cbn [wcalls]. destruct j as [|[|[|[|j]]]]; [reflexivity..|lia].
  - reflexivity.
Defined.

(** ** Opening a stream and the registry *)

(** X22: [NewNamedStream] writes the registry entry of the id it was
    issued and no other. Entries under other ids are as before, and the
    state stays one the methods keep to. If the id is registered already
    (the peer used it first), the entry is overwritten: the stream
    registered before is not closed and not changed, only no longer
    found under the id. *)
Theorem NewNamedStream_registry (name : string) (w : World) :
  wf w ->
  exists (p : nat) (w' : World) (sid : Z),
    NewNamedStream true name w = Ret (p, w') /\
    sid = (if initiator (mp w) then u64 (nextID (mp w) + 1) else nextID (mp w)) /\
    p = length (heap w) /\
    channels (mp w') = <[sid := p]> (channels (mp w)) /\
    (forall ch : Z, ch <> sid -> channels (mp w') !! ch = channels (mp w) !! ch) /\
    (forall (q : nat) (s : Stream.t), heap w !! q = Some s -> heap w' !! q = Some s) /\
    handlers w' = handlers w /\
    wf w'.
Proof.
  intros [Hok Hptr]. eexists. eexists. eexists. split.
  - unfold NewNamedStream, nextChanID. run_M. reflexivity.
  - cbn. split; [reflexivity|]. split; [reflexivity|]. split; [reflexivity|].
    split; [intros ch Hne; apply lookup_insert_ne; congruence|].
    split; [intros q s Hq; apply lookup_app_l_Some; exact Hq|].
    split; [reflexivity|]. split.
    + apply Forall_app. split; [exact Hok|].
      constructor; [apply stream_ok_newStream|constructor].
    + intros ch p. cbn. rewrite length_app. cbn.
      match goal with |- context [<[?k := _]> _] => destruct (decide (k = ch)) as [<-|Hne] end.
      * rewrite lookup_insert_eq. intros [= <-]. lia.
      * rewrite lookup_insert_ne by exact Hne. intros Hp. apply Hptr in Hp. lia.
Qed.

Lemma NewNamedStream_registry_witness :
  exists (p : nat) (w' : World) (sid : Z),
    NewNamedStream true "b"
      (mkWorld [Stream.newStream 0 "a" false] (mk [] 0 false false {[0 := O]}) [] [O])
    = Ret (p, w') /\
    sid = 0 /\
    p = 1%nat /\
    channels (mp w') = <[sid := p]> ({[0 := O]} : gmap Z nat) /\
    (forall ch : Z, ch <> sid -> channels (mp w') !! ch = ({[0 := O]} : gmap Z nat) !! ch) /\
    (forall (q : nat) (s : Stream.t),
       [Stream.newStream 0 "a" false] !! q = Some s -> heap w' !! q = Some s) /\
    handlers w' = [O] /\
    wf w'.
Proof.
  refine (NewNamedStream_registry "b"
            (mkWorld [Stream.newStream 0 "a" false] (mk [] 0 false false {[0 := O]}) [] [O]) _).
  split.
  - constructor; [apply stream_ok_newStream|constructor].
  - intros ch p Hp. cbn in Hp. apply lookup_singleton_Some in Hp as [_ <-]. cbn. lia.
Defined.

(** ** A varint that is too large, on the transport *)

(** X23: a header varint, or a length varint after a well-formed header,
    that runs to ten bytes with the continuation bit makes [Serve] return
    the decoder's error. Nothing is dispatched for the frame: no handler
    is started and the registry is as it was; the bytes after those ten
    stay unread. *)
Theorem Serve_too_large (mem : nat -> Z -> bool) (rdy pick rdy_sd : nat -> bool)
    (w : World) (header : Z) (hb pre bs rest : list byte) :
  wf w ->
  0 <= header < 2 ^ 64 ->
  EncodeVarint header = Some hb ->
  pre = [] \/ pre = hb ->
  length bs = 10%nat ->
  Forall continues bs ->
  con (mp w) = pre ++ bs ++ rest ->
  exists w' : World,
    Serve mem rdy pick rdy_sd w =
      Ret (Some (errorString "Too large of a number!"), w') /\
    con (mp w') = rest /\
    handlers w' = handlers w /\
    channels (mp w') = channels (mp w).
Proof.
  intros Hwf Hh Ehb Hpre Hlen Hall Hcon.
  assert (Hturn : Serve_turn (mem O) (rdy O) (pick O) w =
                  Ret (Some (Some (errorString "Too large of a number!")),
                       with_mp w (with_con (mp w) rest))).
  { unfold Serve_turn. destruct Hpre as [->| ->].
    - erewrite bind_Ret; [|rewrite readNextHeader_eq, Hcon; cbn [app];
                           rewrite (DecodeVarint_overflow bs rest Hlen Hall); reflexivity].
      reflexivity.
    - erewrite bind_Ret; [|rewrite readNextHeader_eq, Hcon,
                            (DecodeVarint_encoded header hb _ Hh Ehb); reflexivity].
      cbn iota beta.
      erewrite bind_Ret; [|rewrite readNext_eq; cbn [mp with_mp con with_con];
                           rewrite (DecodeVarint_overflow bs rest Hlen Hall); reflexivity].
      reflexivity. }
  destruct (Close_range_closes rdy_sd
              (map_to_list (channels (mp w))) (with_mp w (with_con (mp w) rest)))
    as (w' & _ & Hsd & Hmp & Hhd & _).
  - apply Forall_forall. intros [ch p] Hin. cbn.
    apply elem_of_map_to_list in Hin. eapply (proj2 Hwf). exact Hin.
  - exact (proj1 Hwf).
  - exists w'. split; [|rewrite Hmp; auto].
    unfold Serve. erewrite bind_Ret; [|reflexivity].
    erewrite bind_Ret; [|cbn [Serve_loop]; rewrite (bind_Ret _ _ _ _ _ Hturn); reflexivity].
    erewrite bind_Ret; [reflexivity|].
    unfold shutdown. erewrite bind_Ret; [|reflexivity]. exact Hsd.
Qed.

Lemma Serve_too_large_witness :
  exists w' : World,
    Serve (fun _ _ => true) (fun _ => true) (fun _ => true) (fun _ => true)
      (NewMultiplex [x0a; x80; x80; x80; x80; x80; x80; x80; x80; x80; x80; x01] false) =
      Ret (Some (errorString "Too large of a number!"), w') /\
    con (mp w') = [x01] /\
    handlers w' = handlers (NewMultiplex [x0a; x80; x80; x80; x80; x80; x80; x80; x80; x80; x80; x01] false) /\
    channels (mp w') = channels (mp (NewMultiplex [x0a; x80; x80; x80; x80; x80; x80; x80; x80; x80; x80; x01] false)).
Proof.
  apply (Serve_too_large (fun _ _ => true)
           (fun _ => true) (fun _ => true) (fun _ => true)
           (NewMultiplex [x0a; x80; x80; x80; x80; x80; x80; x80; x80; x80; x80; x01] false)
           10 [x0a] [x0a] [x80; x80; x80; x80; x80; x80; x80; x80; x80; x80] [x01]).
  - apply wf_NewMultiplex.
  - lia.
  - reflexivity.
  - right. reflexivity.
  - reflexivity.
  - repeat constructor; unfold continues; vm_compute; congruence.
  - reflexivity.
Defined.
